(** * Obstacle-aware waypoint routing: a shallow embedding of
      [obstacle_manager.py]

    The Python module works on [float] coordinates.  The embedding idealises
    them as real numbers: [+], [-], [*], [/], [math.sqrt], [math.cos] and
    [math.pi] are the operations of [R].  Every division of the source is
    either guarded against a zero divisor ([dr2], [a], [length],
    [p2_lon - p1_lon]) or divides by [earth_radius_m * cos_lat]; the latter
    is written with the total division of [R].

    Exceptions the source can raise are explicit: [IndexError] for
    [polygon[0]] and [obstacles[0]] on an empty list, and
    [UnboundLocalError] for a read of the local [xinters] before any
    assignment.  Object identity of [Obstacle] instances is a numeric
    [oid] handed out by the manager. *)

From Stdlib Require Import Reals Lra Lia Psatz.
From stdpp Require Import base decidable option list sorting gmap.

Open Scope R_scope.

(** ** Numeric comparisons as decidable propositions *)

#[global] Instance R_eq_dec : EqDecision R := Req_dec_T.
#[global] Instance Rlt_decision (x y : R) : Decision (x < y) := Rlt_dec x y.
#[global] Instance Rle_decision (x y : R) : Decision (x <= y) := Rle_dec x y.
#[global] Instance Rgt_decision (x y : R) : Decision (x > y) := Rgt_dec x y.
#[global] Instance R_inhabited : Inhabited R := populate 0.

(** [<=] on floats is the total order that [sorted] sorts by. *)
#[global] Instance Rle_transitive : Transitive Rle.
Proof. intros x y z; lra. Qed.
#[global] Instance Rle_antisymm : AntiSymm (=) Rle.
Proof. intros x y; lra. Qed.
#[global] Instance Rle_total : Total Rle.
Proof. intros x y; lra. Qed.

(** ** Exceptions *)

Inductive exn : Set :=
| IndexError
| UnboundLocalError.

Inductive result (A : Type) : Type :=
| Ok (a : A)
| Raise (e : exn).
Arguments Ok {A} a.
Arguments Raise {A} e.

#[global] Instance result_ret : MRet result := λ A a, Ok a.
#[global] Instance result_bind : MBind result := λ A B f r,
  match r with
  | Ok a => f a
  | Raise e => Raise e
  end.

(** ** Data model *)

(** A waypoint, a centre and a polygon vertex are [(lat, lon)] tuples. *)
Definition Point : Type := R * R.

Record Obstacle : Type := mkObstacle {
  oid : nat;            (* identity of the Python object *)
  center : Point;       (* (lat, lon) *)
  radius : R;
  safe_distance : R
}.

Definition effective_radius (o : Obstacle) : R :=
  radius o + safe_distance o.

Record ObstacleManager : Type := mkManager {
  obstacles : list Obstacle;
  next_oid : nat        (* the next fresh object identity *)
}.

Definition earth_radius_m : R := 111111.

Definition new_manager : ObstacleManager := mkManager [] 0.

Inductive seg_type : Set := scan | turn.

#[global] Instance seg_type_eq_dec : EqDecision seg_type.
Proof. solve_decision. Defined.

(** [float('inf')] as the initial [min_dist]. *)
Inductive xfloat : Type :=
| Fin (r : R)
| Inf.

Definition lt_xfloat (d : R) (m : xfloat) : bool :=
  match m with
  | Fin r => bool_decide (d < r)
  | Inf => true
  end.

(** ** Geometry kernel *)

Definition radians (x : R) : R := x * (PI / 180).

(** The closures [to_meters] and [to_latlon], with the captured centre
    [(cx, cy)] as explicit arguments. *)
Definition to_meters (cx cy lat lon : R) : R * R :=
  let cos_lat := cos (radians cx) in
  let y := (lat - cx) * (PI / 180) * earth_radius_m in
  let x := (lon - cy) * (PI / 180) * earth_radius_m * cos_lat in
  (x, y).

Definition to_latlon (cx cy x y : R) : Point :=
  let cos_lat := cos (radians cx) in
  let lat := cx + y / earth_radius_m * (180 / PI) in
  let lon := cy + x / (earth_radius_m * cos_lat) * (180 / PI) in
  (lat, lon).

Definition calculate_distance (p1 p2 : Point) : R :=
  let '(lat1, lon1) := p1 in
  let '(lat2, lon2) := p2 in
  let dlat := radians (lat2 - lat1) in
  let dlon := radians (lon2 - lon1) in
  let avg_lat := radians ((lat1 + lat2) / 2) in
  let x := dlon * cos avg_lat in
  let y := dlat in
  sqrt (x * x + y * y) * earth_radius_m.

(** ** Registry *)

Definition add_obstacle (m : ObstacleManager) (c : Point) (r sd : R)
  : ObstacleManager * Obstacle :=
  let obstacle := mkObstacle (next_oid m) c r sd in
  (mkManager (obstacles m ++ [obstacle]) (S (next_oid m)), obstacle).

(** [list.remove]: drops the first element identical to [o]. *)
Fixpoint list_remove (o : Obstacle) (l : list Obstacle) : list Obstacle :=
  match l with
  | [] => []
  | o' :: l' => if decide (oid o' = oid o) then l' else o' :: list_remove o l'
  end.

Definition remove_obstacle (m : ObstacleManager) (o : Obstacle)
  : ObstacleManager * bool :=
  if decide (oid o ∈ oid <$> obstacles m)
  then (mkManager (list_remove o (obstacles m)) (next_oid m), true)
  else (m, false).

(** One turn of the search loop of [remove_nearest_obstacle]. *)
Definition nearest_step (coords : Point)
    (st : option Obstacle * xfloat) (obs : Obstacle)
  : option Obstacle * xfloat :=
  let '(nearest_obs, min_dist) := st in
  let dist := calculate_distance coords (center obs) in
  if lt_xfloat dist min_dist then (Some obs, Fin dist)
  else (nearest_obs, min_dist).

Definition remove_nearest_obstacle (m : ObstacleManager) (coords : Point)
    (threshold_m : R) : ObstacleManager * option Obstacle :=
  match obstacles m with
  | [] => (m, None)
  | _ =>
    let '(nearest_obs, _) := foldl (nearest_step coords) (None, Inf) (obstacles m) in
    match nearest_obs with
    | Some o => ((remove_obstacle m o).1, Some o)
    | None => (m, None)
    end
  end.

Definition clear_all (m : ObstacleManager) : ObstacleManager :=
  mkManager [] (next_oid m).

(** ** Collision detector *)

Definition line_intersects_circle (p1 p2 center : Point) (radius_m : R) : bool :=
  let '(lat1, lon1) := p1 in
  let '(lat2, lon2) := p2 in
  let '(cx, cy) := center in
  let '(x1, y1) := to_meters cx cy lat1 lon1 in
  let '(x2, y2) := to_meters cx cy lat2 lon2 in
  let dx := x2 - x1 in
  let dy := y2 - y1 in
  let dr2 := dx * dx + dy * dy in
  if decide (dr2 = 0) then
    bool_decide (x1 * x1 + y1 * y1 <= radius_m * radius_m)
  else
    let t := - (x1 * dx + y1 * dy) / dr2 in
    let t := Rmax 0 (Rmin 1 t) in
    let closest_x := x1 + t * dx in
    let closest_y := y1 + t * dy in
    let dist_sq := closest_x * closest_x + closest_y * closest_y in
    bool_decide (dist_sq < radius_m * radius_m).

Definition check_segment_collision (m : ObstacleManager) (p1 p2 : Point)
  : list Obstacle :=
  filter (λ obstacle,
            line_intersects_circle p1 p2 (center obstacle)
                                   (effective_radius obstacle) = true)
         (obstacles m).

Definition check_waypoint_collision (m : ObstacleManager) (waypoint : Point)
  : bool :=
  bool_decide (Exists (λ obstacle,
     calculate_distance waypoint (center obstacle) < effective_radius obstacle)
     (obstacles m)).

(** ** Scan segmenter *)

(** [sorted] on a list of floats. *)
Definition sorted (l : list R) : list R := merge_sort Rle l.

Definition adjacent_distances (waypoints : list Point) : list (nat * nat * R) :=
  (λ i, (i, S i, calculate_distance (waypoints !!! i) (waypoints !!! S i)))
    <$> seq 0 (length waypoints - 1).

Definition _identify_scan_segments (waypoints : list Point)
  : list (seg_type * (nat * nat)) :=
  if decide (length waypoints < 2)%nat then []
  else
    let distances := adjacent_distances waypoints in
    match distances with
    | [] => []
    | _ =>
      let sorted_dists := sorted ((λ d, d.2) <$> distances) in
      let median_dist := sorted_dists !!! (length sorted_dists / 2)%nat in
      let threshold := median_dist * 0.6 in
      (λ '(idx_start, idx_end, dist),
         if decide (dist > threshold) then (scan, (idx_start, idx_end))
         else (turn, (idx_start, idx_end))) <$> distances
    end.

(** ** Detour planner *)

Definition _calculate_line_circle_intersection (p1 p2 : Point)
    (obstacle : Obstacle) : list Point :=
  let '(lat1, lon1) := p1 in
  let '(lat2, lon2) := p2 in
  let '(cx, cy) := center obstacle in
  let radius := effective_radius obstacle in
  let '(x1, y1) := to_meters cx cy lat1 lon1 in
  let '(x2, y2) := to_meters cx cy lat2 lon2 in
  let dx := x2 - x1 in
  let dy := y2 - y1 in
  let a := dx * dx + dy * dy in
  let b := 2 * (dx * x1 + dy * y1) in
  let c := x1 * x1 + y1 * y1 - radius * radius in
  let discriminant := b * b - 4 * a * c in
  if decide (discriminant < 0 ∨ a = 0) then []
  else
    let t1 := (- b - sqrt discriminant) / (2 * a) in
    let t2 := (- b + sqrt discriminant) / (2 * a) in
    (λ t, to_latlon cx cy (x1 + t * dx) (y1 + t * dy))
      <$> filter (λ t, 0 <= t <= 1) [t1; t2].

Definition _generate_tangent_detour (p1 p2 : Point) (obstacle : Obstacle)
    (inter1 inter2 : Point) : list Point :=
  let '(cx, cy) := center obstacle in
  let radius := effective_radius obstacle * 1.2 in
  let '(x1, y1) := to_meters cx cy p1.1 p1.2 in
  let '(x2, y2) := to_meters cx cy p2.1 p2.2 in
  let dx := x2 - x1 in
  let dy := y2 - y1 in
  let length := sqrt (dx * dx + dy * dy) in
  if decide (length < 0.001) then []
  else
    let ux := dx / length in
    let uy := dy / length in
    let perp_x := - uy in
    let perp_y := ux in
    let detour_offset := radius in
    let detour1_x := perp_x * detour_offset in
    let detour1_y := perp_y * detour_offset in
    let detour2_x := - perp_x * detour_offset in
    let detour2_y := - perp_y * detour_offset in
    let dist1_sq := detour1_x ^ 2 + detour1_y ^ 2 in
    let dist2_sq := detour2_x ^ 2 + detour2_y ^ 2 in
    let '(detour_x, detour_y) :=
      if decide (dist1_sq < dist2_sq) then (detour1_x, detour1_y)
      else (detour2_x, detour2_y) in
    let t_entry := 0.25 in
    let t_exit := 0.75 in
    let entry_x := x1 + ux * length * t_entry + detour_x in
    let entry_y := y1 + uy * length * t_entry + detour_y in
    let exit_x := x1 + ux * length * t_exit + detour_x in
    let exit_y := y1 + uy * length * t_exit + detour_y in
    let entry_point := to_latlon cx cy entry_x entry_y in
    let exit_point := to_latlon cx cy exit_x exit_y in
    [entry_point; exit_point].

(** *** Ray casting.  The local [xinters] is unbound until its first
    assignment and keeps its value from one iteration to the next; each
    iteration reports how it touched the variable. *)

Inductive xinters_access : Set :=
| NotRead        (* the iteration does not evaluate [lat <= xinters] *)
| ReadAfterSet   (* assigned in this iteration, then read *)
| ReadStale      (* read with the value of an earlier iteration *)
| ReadUnbound.   (* read before any assignment: UnboundLocalError *)

Record pip_state : Type := mkPip {
  inside : bool;
  xinters : option R;
  pip_p1 : Point
}.

Definition pip_iteration (lat lon : R) (st : pip_state) (p2 : Point)
  : xinters_access * result pip_state :=
  let '(p1_lat, p1_lon) := pip_p1 st in
  let '(p2_lat, p2_lon) := p2 in
  if decide (lon > Rmin p1_lon p2_lon) then
    if decide (lon <= Rmax p1_lon p2_lon) then
      if decide (lat <= Rmax p1_lat p2_lat) then
        let assigned := bool_decide (p1_lon ≠ p2_lon) in
        let xinters' :=
          if assigned
          then Some ((lon - p1_lon) * (p2_lat - p1_lat) / (p2_lon - p1_lon) + p1_lat)
          else xinters st in
        if decide (p1_lat = p2_lat) then
          (NotRead, Ok (mkPip (negb (inside st)) xinters' p2))
        else
          match xinters' with
          | None => (ReadUnbound, Raise UnboundLocalError)
          | Some v =>
            (if assigned then ReadAfterSet else ReadStale,
             Ok (mkPip (if decide (lat <= v) then negb (inside st) else inside st)
                       xinters' p2))
          end
      else (NotRead, Ok (mkPip (inside st) (xinters st) p2))
    else (NotRead, Ok (mkPip (inside st) (xinters st) p2))
  else (NotRead, Ok (mkPip (inside st) (xinters st) p2)).

Fixpoint pip_loop (lat lon : R) (st : pip_state) (p2s : list Point)
  : list xinters_access * result bool :=
  match p2s with
  | [] => ([], Ok (inside st))
  | p2 :: rest =>
    match pip_iteration lat lon st p2 with
    | (acc, Ok st') =>
      let '(tr, out) := pip_loop lat lon st' rest in (acc :: tr, out)
    | (acc, Raise e) => ([acc], Raise e)
    end
  end.

(** [polygon[i % n]] for [i] in [range(1, n + 1)]. *)
Definition polygon_edge_ends (polygon : list Point) : list Point :=
  (λ i, polygon !!! (i mod length polygon)%nat) <$> seq 1 (length polygon).

Definition point_in_polygon_trace (point : Point) (polygon : list Point)
  : list xinters_access * result bool :=
  let '(lat, lon) := point in
  match polygon with
  | [] => ([], Raise IndexError)
  | p1 :: _ => pip_loop lat lon (mkPip false None p1) (polygon_edge_ends polygon)
  end.

Definition point_in_polygon (point : Point) (polygon : list Point)
  : result bool :=
  (point_in_polygon_trace point polygon).2.

(** The validation loop of [_segment_scan_line]. *)
Fixpoint valid_detour_points (boundary_corners : option (list Point))
    (detour_points : list Point) : result (list Point) :=
  match detour_points with
  | [] => Ok []
  | dp :: rest =>
    keep ← match boundary_corners with
           | None => Ok true
           | Some polygon => point_in_polygon dp polygon
           end;
    valid ← valid_detour_points boundary_corners rest;
    Ok (if keep : bool then dp :: valid else valid)
  end.

Definition _segment_scan_line (p1 p2 : Point) (obstacles : list Obstacle)
    (boundary_corners : option (list Point)) : result (list Point) :=
  match obstacles with
  | [] => Raise IndexError
  | obstacle :: _ =>
    let intersection_points := _calculate_line_circle_intersection p1 p2 obstacle in
    if decide (length intersection_points < 2)%nat then Ok [p1; p2]
    else
      let detour_points :=
        _generate_tangent_detour p1 p2 obstacle
          (intersection_points !!! 0%nat) (intersection_points !!! 1%nat) in
      valid_detour ← valid_detour_points boundary_corners detour_points;
      match valid_detour with
      | [] => Ok [p1; p2]
      | _ => Ok ([p1] ++ valid_detour ++ [p2])
      end
  end.

(** ** Path assembler *)

(** Loop state: [result_waypoints] and [processed_indices]. *)
Definition route_state : Type := list Point * gset nat.

(** [if idx not in processed_indices: append(waypoints[idx]); add(idx)]. *)
Definition add_unprocessed (waypoints : list Point) (st : route_state)
    (idx : nat) : route_state :=
  if decide (idx ∉ st.2) then (st.1 ++ [waypoints !!! idx], {[idx]} ∪ st.2)
  else st.

(** [if wp not in result_waypoints: append(wp)]. *)
Definition append_new (result_waypoints : list Point) (wp : Point) : list Point :=
  if decide (wp ∈ result_waypoints) then result_waypoints
  else result_waypoints ++ [wp].

Definition route_step (m : ObstacleManager) (waypoints : list Point)
    (boundary_corners : option (list Point))
    (st : route_state) (seg : seg_type * (nat * nat)) : result route_state :=
  let '(seg_type, (start_idx, end_idx)) := seg in
  match seg_type with
  | scan =>
    let p1 := waypoints !!! start_idx in
    let p2 := waypoints !!! end_idx in
    let colliding_obstacles := check_segment_collision m p1 p2 in
    match colliding_obstacles with
    | [] =>
      Ok (add_unprocessed waypoints (add_unprocessed waypoints st start_idx) end_idx)
    | _ =>
      segmented_waypoints ←
        _segment_scan_line p1 p2 colliding_obstacles boundary_corners;
      Ok (foldl append_new st.1 segmented_waypoints,
          {[end_idx]} ∪ ({[start_idx]} ∪ st.2))
    end
  | turn =>
    Ok (foldl (add_unprocessed waypoints) st [start_idx; end_idx])
  end.

Fixpoint for_each {S A : Type} (body : S → A → result S) (s : S) (l : list A)
  : result S :=
  match l with
  | [] => Ok s
  | a :: l' => s' ← body s a; for_each body s' l'
  end.

Definition filter_waypoints_with_detour (m : ObstacleManager)
    (waypoints : list Point) (boundary_corners : option (list Point))
  : result (list Point) :=
  match waypoints, obstacles m with
  | [], _ | _, [] => Ok waypoints
  | _, _ =>
    let scan_segments := _identify_scan_segments waypoints in
    st ← for_each (route_step m waypoints boundary_corners) ([], ∅) scan_segments;
    let st := foldl (add_unprocessed waypoints) st (seq 0 (length waypoints)) in
    Ok st.1
  end.

(** ** Named quantities of the planner, for the statements below *)

(** Metres per degree of the local plane: [(pi / 180) * earth_radius_m]. *)
Definition deg_m : R := PI / 180 * earth_radius_m.

(** The segment in the local plane of [obstacle]: [(x1, y1, dx, dy)]. *)
Definition local_segment (p1 p2 : Point) (obstacle : Obstacle)
  : R * R * R * R :=
  let '(cx, cy) := center obstacle in
  let '(x1, y1) := to_meters cx cy p1.1 p1.2 in
  let '(x2, y2) := to_meters cx cy p2.1 p2.2 in
  (x1, y1, x2 - x1, y2 - y1).

Definition quad_a (p1 p2 : Point) (obstacle : Obstacle) : R :=
  let '(x1, y1, dx, dy) := local_segment p1 p2 obstacle in
  dx * dx + dy * dy.

Definition quad_b (p1 p2 : Point) (obstacle : Obstacle) : R :=
  let '(x1, y1, dx, dy) := local_segment p1 p2 obstacle in
  2 * (dx * x1 + dy * y1).

Definition quad_c (p1 p2 : Point) (obstacle : Obstacle) : R :=
  let '(x1, y1, dx, dy) := local_segment p1 p2 obstacle in
  x1 * x1 + y1 * y1 - effective_radius obstacle * effective_radius obstacle.

Definition quad_disc (p1 p2 : Point) (obstacle : Obstacle) : R :=
  quad_b p1 p2 obstacle * quad_b p1 p2 obstacle
  - 4 * quad_a p1 p2 obstacle * quad_c p1 p2 obstacle.

Definition root1 (p1 p2 : Point) (obstacle : Obstacle) : R :=
  (- quad_b p1 p2 obstacle - sqrt (quad_disc p1 p2 obstacle))
  / (2 * quad_a p1 p2 obstacle).

Definition root2 (p1 p2 : Point) (obstacle : Obstacle) : R :=
  (- quad_b p1 p2 obstacle + sqrt (quad_disc p1 p2 obstacle))
  / (2 * quad_a p1 p2 obstacle).

Definition on_segment (t : R) : Prop := 0 <= t <= 1.

#[global] Instance on_segment_dec (t : R) : Decision (on_segment t).
Proof. unfold on_segment. apply _. Defined.

Definition segment_length (p1 p2 : Point) (obstacle : Obstacle) : R :=
  sqrt (quad_a p1 p2 obstacle).

(** The left normal [n = (-u.y, u.x)] of the unit direction [u]. *)
Definition perp (p1 p2 : Point) (obstacle : Obstacle) : R * R :=
  let '(x1, y1, dx, dy) := local_segment p1 p2 obstacle in
  let length := segment_length p1 p2 obstacle in
  (- (dy / length), dx / length).

Definition detour_radius (obstacle : Obstacle) : R :=
  effective_radius obstacle * 1.2.

(** The candidates [+r'.n] and [-r'.n]. *)
Definition detour1 (p1 p2 : Point) (obstacle : Obstacle) : R * R :=
  let '(perp_x, perp_y) := perp p1 p2 obstacle in
  (perp_x * detour_radius obstacle, perp_y * detour_radius obstacle).

Definition detour2 (p1 p2 : Point) (obstacle : Obstacle) : R * R :=
  let '(perp_x, perp_y) := perp p1 p2 obstacle in
  (- perp_x * detour_radius obstacle, - perp_y * detour_radius obstacle).

Definition sq_norm (v : R * R) : R := v.1 ^ 2 + v.2 ^ 2.

(** The geographic point whose local image is [P(t) + off], where
    [P(t) = (x1 + t * dx, y1 + t * dy)]. *)
Definition bypass_point (p1 p2 : Point) (obstacle : Obstacle) (t : R)
    (off : R * R) : Point :=
  let '(x1, y1, dx, dy) := local_segment p1 p2 obstacle in
  to_latlon (center obstacle).1 (center obstacle).2
            (x1 + t * dx + off.1) (y1 + t * dy + off.2).

(** The same point as the source writes it, through [u * length * t]. *)
Definition bypass_point_u (p1 p2 : Point) (obstacle : Obstacle) (t : R)
    (off : R * R) : Point :=
  let '(x1, y1, dx, dy) := local_segment p1 p2 obstacle in
  let length := segment_length p1 p2 obstacle in
  to_latlon (center obstacle).1 (center obstacle).2
            (x1 + dx / length * length * t + off.1)
            (y1 + dy / length * length * t + off.2).

(** Squared distance from the local origin to the closest point of the
    segment, with the clamped parameter [t = clamp(-(p1.d)/|d|^2, 0, 1)];
    a zero-length segment is its single point. *)
Definition closest_dist_sq (p1 p2 center : Point) : R :=
  let '(x1, y1) := to_meters center.1 center.2 p1.1 p1.2 in
  let '(x2, y2) := to_meters center.1 center.2 p2.1 p2.2 in
  let dx := x2 - x1 in
  let dy := y2 - y1 in
  if decide (dx * dx + dy * dy = 0) then x1 * x1 + y1 * y1
  else
    let t := Rmax 0 (Rmin 1 (- (x1 * dx + y1 * dy) / (dx * dx + dy * dy))) in
    (x1 + t * dx) * (x1 + t * dx) + (y1 + t * dy) * (y1 + t * dy).

Definition degenerate (p1 p2 center : Point) : Prop :=
  let '(x1, y1) := to_meters center.1 center.2 p1.1 p1.2 in
  let '(x2, y2) := to_meters center.1 center.2 p2.1 p2.2 in
  (x2 - x1) * (x2 - x1) + (y2 - y1) * (y2 - y1) = 0.

(** An edge of [polygon] whose two vertices have the same longitude. *)
Definition has_meridian_edge (polygon : list Point) : Prop :=
  ∃ i : nat, (i < length polygon)%nat ∧
    (polygon !!! i).2 = (polygon !!! (S i mod length polygon)%nat).2.

(** Some iteration reads [xinters] without having assigned it. *)
Definition reads_unset_xinters (point : Point) (polygon : list Point) : Prop :=
  ∃ acc, acc ∈ (point_in_polygon_trace point polygon).1 ∧
         (acc = ReadStale ∨ acc = ReadUnbound).

(** Five waypoints on the equator, 100, 5, 100 and 5 metres apart. *)
Definition equator_path : list Point :=
  [(0, 0); (0, 100 / deg_m); (0, 105 / deg_m); (0, 205 / deg_m); (0, 210 / deg_m)].

(** A registry with one obstacle at the origin, 50 m wide with the default
    1 m margin, and an L-shaped path one degree away from it. *)
Definition origin_registry : ObstacleManager :=
  (add_obstacle new_manager (0, 0) 50 1).1.

Definition far_path : list Point := [(1, 0); (1, 1); (2, 1)].

(** A point-like obstacle at the origin with the default 1 m margin, and
    two waypoints 0.8 mm apart whose segment cuts a 0.4 mm chord out of its
    circle. *)
Definition pin_obstacle : Obstacle := mkObstacle 0 (0, 0) 0.00000001 1.

Definition chord_p1 : Point := (0.99999999 / deg_m, - 0.0004 / deg_m).
Definition chord_p2 : Point := (0.99999999 / deg_m, 0.0004 / deg_m).

(** An obstacle at the origin whose effective radius is one degree of the
    local plane, and a meridian leg passing 0.6 degrees west of it. *)
Definition degree_obstacle : Obstacle := mkObstacle 0 (0, 0) deg_m 0.

Definition degree_registry : ObstacleManager := mkManager [degree_obstacle] 1.

Definition meridian_leg : list Point := [(-4, -0.6); (4, -0.6)].

(** What one and two routing passes make of [meridian_leg]. *)
Definition routed_once : list Point :=
  [(-4, -0.6); (-2, 0.6); (2, 0.6); (4, -0.6)].

Definition routed_twice : list Point :=
  [(-4, -0.6); (-2, 0.6); (-1, 1.8); (1, 1.8); (2, 0.6); (4, -0.6)].

(** The end-to-end example of the specification: one obstacle 50 m wide
    with a 1 m margin, half-way between two waypoints a hundredth of a
    degree of longitude apart. *)
Definition example_registry : ObstacleManager :=
  (add_obstacle new_manager (0, 0.005) 50 1).1.

Definition example_obstacle : Obstacle :=
  (add_obstacle new_manager (0, 0.005) 50 1).2.

Definition example_p1 : Point := (0, 0).
Definition example_p2 : Point := (0, 0.01).

(** No adjacent pair of [waypoints] collides with a registered obstacle. *)
Definition collision_free (m : ObstacleManager) (waypoints : list Point) : Prop :=
  ∀ i : nat, (S i < length waypoints)%nat →
    check_segment_collision m (waypoints !!! i) (waypoints !!! S i) = [].

(** The loop invariant when nothing collides: the first [c] waypoints have
    been emitted, in order, and exactly the indices below [c] are marked. *)
Definition emitted (waypoints : list Point) (c : nat) (st : route_state) : Prop :=
  st.1 = take c waypoints ∧ ∀ j : nat, j ∈ st.2 ↔ (j < c)%nat.

(** Object identities in the registry are pairwise distinct and below the
    allocation counter. *)
Definition wf_manager (m : ObstacleManager) : Prop :=
  NoDup (oid <$> obstacles m) ∧ Forall (λ o, (oid o < next_oid m)%nat) (obstacles m).

(** ** Further named quantities *)

(** The point of the segment at parameter [s], in the local plane centred
    at [c]. *)
Definition segment_point (p1 p2 c : Point) (s : R) : R * R :=
  let '(x1, y1) := to_meters c.1 c.2 p1.1 p1.2 in
  let '(x2, y2) := to_meters c.1 c.2 p2.1 p2.2 in
  (x1 + s * (x2 - x1), y1 + s * (y2 - y1)).

(** The local image of the bypass point at parameter [t]: the point of
    the segment displaced by the chosen offset. *)
Definition bypass_local (p1 p2 : Point) (obstacle : Obstacle) (t : R) : R * R :=
  let '(x1, y1, dx, dy) := local_segment p1 p2 obstacle in
  (x1 + t * dx + (detour2 p1 p2 obstacle).1,
   y1 + t * dy + (detour2 p1 p2 obstacle).2).

(** The obstacle's centre lies on the segment's line or to the left of the
    direction of travel [p1 -> p2]. *)
Definition centre_on_left (p1 p2 : Point) (obstacle : Obstacle) : Prop :=
  let '(x1, y1, dx, dy) := local_segment p1 p2 obstacle in
  0 <= x1 * dy - y1 * dx.

(** The ray-casting test of one edge, written without the loop's state:
    the three guards, and then either a constant-latitude edge or a query
    latitude not above the crossing. *)
Definition edge_crossed (lat lon : R) (edge : Point * Point) : bool :=
  let '((p1_lat, p1_lon), (p2_lat, p2_lon)) := edge in
  bool_decide (lon > Rmin p1_lon p2_lon ∧ lon <= Rmax p1_lon p2_lon ∧
               lat <= Rmax p1_lat p2_lat ∧
               (p1_lat = p2_lat ∨
                lat <= (lon - p1_lon) * (p2_lat - p1_lat) / (p2_lon - p1_lon)
                       + p1_lat)).

(** The edges the loop visits: [(polygon[i - 1], polygon[i % n])]. *)
Definition polygon_edges (polygon : list Point) : list (Point * Point) :=
  zip polygon (polygon_edge_ends polygon).

(** Parity of the number of crossed edges. *)
Definition crossing_parity (lat lon : R) (edges : list (Point * Point)) : bool :=
  foldl (λ inside edge, xorb inside (edge_crossed lat lon edge)) false edges.

(** The axis-parallel rectangle with corners [(lat0, lon0)] and
    [(lat1, lon1)], listed corner after corner. *)
Definition rectangle (lat0 lon0 lat1 lon1 : R) : list Point :=
  [(lat0, lon0); (lat0, lon1); (lat1, lon1); (lat1, lon0)].

(** [p] is one of the two bypass points of some adjacent pair of
    [waypoints] around some registered obstacle. *)
Definition is_bypass_point (m : ObstacleManager) (waypoints : list Point)
    (p : Point) : Prop :=
  ∃ (i : nat) (obstacle : Obstacle) (t : R),
    (S i < length waypoints)%nat ∧ obstacle ∈ obstacles m ∧
    (t = 0.25 ∨ t = 0.75) ∧
    p = bypass_point_u (waypoints !!! i) (waypoints !!! S i) obstacle t
          (detour2 (waypoints !!! i) (waypoints !!! S i) obstacle).

(** Loop invariant of the path assembler: the waypoint of every marked
    index has been emitted, and everything emitted is a waypoint or a
    bypass point. *)
Definition assembled (m : ObstacleManager) (waypoints : list Point)
    (st : route_state) : Prop :=
  (∀ i : nat, i ∈ st.2 → waypoints !!! i ∈ st.1) ∧
  (∀ p : Point, p ∈ st.1 → p ∈ waypoints ∨ is_bypass_point m waypoints p).

(** ** The user-interface extension ([obstacle_ui_extension.py])

    Only the state the class owns is embedded: the manager, the two mode
    flags, the selected obstacle and the two default sizes.  Calls into
    the map widget, the buttons and the logger do not touch these fields
    and are left out; the drawing helpers are wrapped in [try/except] in
    the source. *)

(** [generate_circle_points]; [None] stands for the [ZeroDivisionError] of
    [2 * math.pi * i / num_points] when [num_points] is [0]. *)
Definition generate_circle_points (center_lat center_lon radius_m : R)
    (num_points : Z) : option (list Point) :=
  if decide (num_points = 0%Z) then None
  else
    Some ((λ i : nat,
             let angle := 2 * PI * INR i / IZR num_points in
             let dlat := (radius_m / 111111) * cos angle in
             let dlon := (radius_m / 111111) * sin angle
                         / cos (radians center_lat) in
             (center_lat + dlat, center_lon + dlon))
            <$> seq 0 (Z.to_nat (num_points + 1))).

Record ObstacleUIExtension : Type := mkUI {
  obstacle_manager : ObstacleManager;
  creating_mode : bool;
  delete_mode : bool;
  selected_obstacle : option Obstacle;
  default_radius : R;
  default_safe_distance : R
}.

Definition new_ui : ObstacleUIExtension := mkUI new_manager false false None 5 1.

Definition enter_create_mode (ui : ObstacleUIExtension) : ObstacleUIExtension :=
  mkUI (obstacle_manager ui) true false (selected_obstacle ui)
       (default_radius ui) (default_safe_distance ui).

Definition exit_create_mode (ui : ObstacleUIExtension) : ObstacleUIExtension :=
  mkUI (obstacle_manager ui) false (delete_mode ui) (selected_obstacle ui)
       (default_radius ui) (default_safe_distance ui).

Definition toggle_create_mode (ui : ObstacleUIExtension) : ObstacleUIExtension :=
  if creating_mode ui then exit_create_mode ui else enter_create_mode ui.

Definition on_create_click (ui : ObstacleUIExtension) (coords : Point)
  : ObstacleUIExtension :=
  let '(m, obstacle) :=
    add_obstacle (obstacle_manager ui) coords
                 (default_radius ui) (default_safe_distance ui) in
  mkUI m (creating_mode ui) (delete_mode ui) (Some obstacle)
       (default_radius ui) (default_safe_distance ui).

(** [obstacle.radius = value] and [obstacle.safe_distance = value] on an
    object that the registry holds too: every reference to the object sees
    the new value. *)
Definition set_radius (value : R) (o : Obstacle) : Obstacle :=
  mkObstacle (oid o) (center o) value (safe_distance o).

Definition set_safe_distance (value : R) (o : Obstacle) : Obstacle :=
  mkObstacle (oid o) (center o) (radius o) value.

Definition mutate_object (target : Obstacle) (f : Obstacle → Obstacle)
    (m : ObstacleManager) : ObstacleManager :=
  mkManager ((λ o, if decide (oid o = oid target) then f o else o)
               <$> obstacles m)
            (next_oid m).

Definition on_radius_change (ui : ObstacleUIExtension) (value : R)
  : ObstacleUIExtension :=
  match selected_obstacle ui with
  | Some o =>
    mkUI (mutate_object o (set_radius value) (obstacle_manager ui))
         (creating_mode ui) (delete_mode ui) (Some (set_radius value o))
         value (default_safe_distance ui)
  | None =>
    mkUI (obstacle_manager ui) (creating_mode ui) (delete_mode ui) None
         value (default_safe_distance ui)
  end.

Definition on_safe_distance_change (ui : ObstacleUIExtension) (value : R)
  : ObstacleUIExtension :=
  match selected_obstacle ui with
  | Some o =>
    mkUI (mutate_object o (set_safe_distance value) (obstacle_manager ui))
         (creating_mode ui) (delete_mode ui) (Some (set_safe_distance value o))
         (default_radius ui) value
  | None =>
    mkUI (obstacle_manager ui) (creating_mode ui) (delete_mode ui) None
         (default_radius ui) value
  end.

Definition enter_delete_mode (ui : ObstacleUIExtension) : ObstacleUIExtension :=
  mkUI (obstacle_manager ui) false true (selected_obstacle ui)
       (default_radius ui) (default_safe_distance ui).

Definition exit_delete_mode (ui : ObstacleUIExtension) : ObstacleUIExtension :=
  mkUI (obstacle_manager ui) (creating_mode ui) false (selected_obstacle ui)
       (default_radius ui) (default_safe_distance ui).

Definition toggle_delete_mode (ui : ObstacleUIExtension) : ObstacleUIExtension :=
  if delete_mode ui then exit_delete_mode ui else enter_delete_mode ui.

Definition on_delete_click (ui : ObstacleUIExtension) (coords : Point)
  : ObstacleUIExtension :=
  let '(m, removed) :=
    remove_nearest_obstacle (obstacle_manager ui) coords 100 in
  let ui :=
    match removed with
    | Some r =>
      let selected :=
        match selected_obstacle ui with
        | Some o => if decide (oid o = oid r) then None else Some o
        | None => None
        end in
      mkUI m (creating_mode ui) (delete_mode ui) selected
           (default_radius ui) (default_safe_distance ui)
    | None =>
      mkUI m (creating_mode ui) (delete_mode ui) (selected_obstacle ui)
           (default_radius ui) (default_safe_distance ui)
    end in
  exit_delete_mode ui.

Definition clear_all_obstacles (ui : ObstacleUIExtension) : ObstacleUIExtension :=
  mkUI (clear_all (obstacle_manager ui)) (creating_mode ui) (delete_mode ui)
       None (default_radius ui) (default_safe_distance ui).

Definition apply_obstacle_avoidance (ui : ObstacleUIExtension)
    (waypoints : list Point) (boundary_corners : option (list Point))
  : result (list Point) :=
  match obstacles (obstacle_manager ui) with
  | [] => Ok waypoints
  | _ => filter_waypoints_with_detour (obstacle_manager ui) waypoints
                                      boundary_corners
  end.

(** The calls a user of the extension can make. *)
Inductive ui_call : Type :=
| ToggleCreateMode
| ToggleDeleteMode
| CreateClick (coords : Point)
| DeleteClick (coords : Point)
| RadiusChange (value : R)
| SafeDistanceChange (value : R)
| ClearAllObstacles.

Definition ui_do (ui : ObstacleUIExtension) (call : ui_call)
  : ObstacleUIExtension :=
  match call with
  | ToggleCreateMode => toggle_create_mode ui
  | ToggleDeleteMode => toggle_delete_mode ui
  | CreateClick coords => on_create_click ui coords
  | DeleteClick coords => on_delete_click ui coords
  | RadiusChange value => on_radius_change ui value
  | SafeDistanceChange value => on_safe_distance_change ui value
  | ClearAllObstacles => clear_all_obstacles ui
  end.

(** What every reachable state of the extension satisfies. *)
Definition ui_consistent (ui : ObstacleUIExtension) : Prop :=
  wf_manager (obstacle_manager ui) ∧
  ¬ (creating_mode ui = true ∧ delete_mode ui = true) ∧
  ∀ o, selected_obstacle ui = Some o → o ∈ obstacles (obstacle_manager ui).

(** ** Basic facts *)

#[global] Arguments calculate_distance : simpl never.
#[global] Arguments line_intersects_circle : simpl never.


Lemma deg_m_pos : 0 < deg_m.
Proof. unfold deg_m, earth_radius_m. pose proof PI_RGT_0. nra. Qed.

Lemma generate_tangent_detour_eq p1 p2 obstacle inter1 inter2 :
  _generate_tangent_detour p1 p2 obstacle inter1 inter2 =
  if decide (segment_length p1 p2 obstacle < 0.001) then []
  else [bypass_point_u p1 p2 obstacle 0.25 (detour2 p1 p2 obstacle);
        bypass_point_u p1 p2 obstacle 0.75 (detour2 p1 p2 obstacle)].
Proof.
  unfold _generate_tangent_detour, bypass_point_u, detour2, perp,
    segment_length, quad_a, local_segment.
  destruct p1 as [lat1 lon1], p2 as [lat2 lon2], obstacle as [i [cx cy] r sd].
  cbn [center fst snd to_meters].
  case_decide; [reflexivity|].
  rewrite decide_False by lra.
  reflexivity.
Qed.

(** ** Side selection *)

Lemma detour2_mirror p1 p2 obstacle :
  detour2 p1 p2 obstacle =
  (- (detour1 p1 p2 obstacle).1, - (detour1 p1 p2 obstacle).2).
Proof.
  unfold detour1, detour2. destruct (perp p1 p2 obstacle) as [px py].
  cbn [fst snd]. f_equal; ring.
Qed.

(** C9: the two candidate offsets [+r'.n] and [-r'.n] are mirror images with
    the same squared magnitude, so the strict comparison
    [dist1_sq < dist2_sq] never holds and the detour is always built with
    the second candidate [-r'.n] (whenever one is built at all, that is
    when the segment is not shorter than a millimetre). *)
Theorem C9_side_selection_degenerate (p1 p2 : Point) (obstacle : Obstacle)
    (inter1 inter2 : Point) :
  detour2 p1 p2 obstacle
    = (- (detour1 p1 p2 obstacle).1, - (detour1 p1 p2 obstacle).2) ∧
  sq_norm (detour1 p1 p2 obstacle) = sq_norm (detour2 p1 p2 obstacle) ∧
  _generate_tangent_detour p1 p2 obstacle inter1 inter2 =
    if decide (segment_length p1 p2 obstacle < 0.001) then []
    else [bypass_point_u p1 p2 obstacle 0.25 (detour2 p1 p2 obstacle);
          bypass_point_u p1 p2 obstacle 0.75 (detour2 p1 p2 obstacle)].
Proof.
  split; [apply detour2_mirror|]. split.
  - rewrite detour2_mirror. unfold sq_norm. cbn [fst snd]. ring.
  - apply generate_tangent_detour_eq.
Qed.

(** ** Collision test *)

Lemma line_intersects_circle_nondegenerate p1 p2 c r :
  ¬ degenerate p1 p2 c →
  line_intersects_circle p1 p2 c r = bool_decide (closest_dist_sq p1 p2 c < r * r).
Proof.
  unfold degenerate, line_intersects_circle, closest_dist_sq.
  destruct p1 as [lat1 lon1], p2 as [lat2 lon2], c as [cx cy].
  cbn [fst snd to_meters]. intros Hnd.
  rewrite !decide_False by exact Hnd. reflexivity.
Qed.

Lemma line_intersects_circle_degenerate p1 p2 c r :
  degenerate p1 p2 c →
  line_intersects_circle p1 p2 c r = bool_decide (closest_dist_sq p1 p2 c <= r * r).
Proof.
  unfold degenerate, line_intersects_circle, closest_dist_sq.
  destruct p1 as [lat1 lon1], p2 as [lat2 lon2], c as [cx cy].
  cbn [fst snd to_meters]. intros Hd.
  rewrite !decide_True by exact Hd. reflexivity.
Qed.

(** C4 (the degenerate branch): a zero-length segment whose point lies
    exactly on the boundary, squared distance equal to the squared radius,
    is reported as colliding, because that branch compares with [<=]. *)
Theorem C4_degenerate_boundary_collides (p c : Point) (r : R) :
  closest_dist_sq p p c = r * r →
  line_intersects_circle p p c r = true.
Proof.
  intros Heq. rewrite line_intersects_circle_degenerate.
  - apply bool_decide_eq_true. lra.
  - unfold degenerate. destruct (to_meters _ _ _ _). ring.
Qed.

Lemma C4_degenerate_boundary_collides_witness :
  closest_dist_sq (1, 0) (1, 0) (0, 0) = deg_m * deg_m ∧
  line_intersects_circle (1, 0) (1, 0) (0, 0) deg_m = true.
Proof.
  assert (H : closest_dist_sq (1, 0) (1, 0) (0, 0) = deg_m * deg_m).
  { unfold closest_dist_sq, to_meters, deg_m. cbn [fst snd].
    rewrite decide_True by ring. ring. }
  split; [exact H | exact (C4_degenerate_boundary_collides (1, 0) (0, 0) deg_m H)].
Defined.

(** The non-degenerate branch is strict, as the claim says. *)
Lemma line_intersects_circle_strict p1 p2 c r :
  ¬ degenerate p1 p2 c →
  (closest_dist_sq p1 p2 c = r * r → line_intersects_circle p1 p2 c r = false) ∧
  (closest_dist_sq p1 p2 c < r * r → line_intersects_circle p1 p2 c r = true).
Proof.
  intros Hnd. rewrite line_intersects_circle_nondegenerate by exact Hnd.
  split; intros H.
  - apply bool_decide_eq_false. lra.
  - apply bool_decide_eq_true. exact H.
Qed.

(** ** Ray casting never reads [xinters] unset *)

Lemma pip_iteration_sound lat lon st p2 :
  ∃ acc st', pip_iteration lat lon st p2 = (acc, Ok st') ∧
             (acc = NotRead ∨ acc = ReadAfterSet).
Proof.
  unfold pip_iteration.
  destruct (pip_p1 st) as [p1_lat p1_lon], p2 as [p2_lat p2_lon].
  destruct (decide (lon > Rmin p1_lon p2_lon)) as [Hmin|];
    [|eexists _, _; split; [reflexivity | by left]].
  destruct (decide (lon <= Rmax p1_lon p2_lon)) as [Hmax|];
    [|eexists _, _; split; [reflexivity | by left]].
  destruct (decide (lat <= Rmax p1_lat p2_lat));
    [|eexists _, _; split; [reflexivity | by left]].
  assert (Hne : p1_lon ≠ p2_lon).
  { intros ->. unfold Rmin, Rmax in *. destruct (Rle_dec p2_lon p2_lon); lra. }
  rewrite (bool_decide_eq_true_2 _ Hne).
  destruct (decide (p1_lat = p2_lat));
    eexists _, _; (split; [reflexivity|]); [by left | by right].
Qed.

Lemma pip_loop_sound lat lon p2s : ∀ st,
  ∃ tr b, pip_loop lat lon st p2s = (tr, Ok b) ∧
          Forall (λ acc, acc = NotRead ∨ acc = ReadAfterSet) tr.
Proof.
  induction p2s as [|p2 rest IH]; intros st; cbn [pip_loop].
  - eexists _, _; split; [reflexivity | constructor].
  - destruct (pip_iteration_sound lat lon st p2) as (acc & st' & -> & Hacc).
    destruct (IH st') as (tr & b & -> & Htr).
    eexists _, _; split; [reflexivity | by constructor].
Qed.

(** C10 (as the code behaves): in every iteration that evaluates
    [lat <= xinters] the variable was assigned just before, for every
    polygon and query point; an edge with [lon1 == lon2] cannot pass the
    two longitude guards [lon > min] and [lon <= max].  On a polygon with
    at least one vertex the test returns a boolean. *)
Theorem C10_xinters_always_set (point v : Point) (polygon : list Point) :
  Forall (λ acc, acc = NotRead ∨ acc = ReadAfterSet)
         (point_in_polygon_trace point (v :: polygon)).1 ∧
  ∃ b, point_in_polygon point (v :: polygon) = Ok b.
Proof.
  unfold point_in_polygon, point_in_polygon_trace. destruct point as [lat lon].
  destruct (pip_loop_sound lat lon (polygon_edge_ends (v :: polygon))
              (mkPip false None v)) as (tr & b & -> & Htr).
  split; [exact Htr | by exists b].
Qed.

(** C10 (as stated) does not hold: no polygon, with or without an edge of
    constant longitude, and no query point make the test read [xinters]
    stale or unbound. *)
Lemma C10_no_unset_read :
  ¬ ∃ (polygon : list Point) (point : Point),
      has_meridian_edge polygon ∧ reads_unset_xinters point polygon.
Proof.
  intros (polygon & point & _ & acc & Hin & Hacc).
  destruct polygon as [|v polygon].
  - unfold point_in_polygon_trace in Hin. destruct point. cbn in Hin.
    by apply elem_of_nil in Hin.
  - unfold point_in_polygon_trace in Hin. destruct point as [lat lon].
    destruct (pip_loop_sound lat lon (polygon_edge_ends (v :: polygon))
                (mkPip false None v)) as (tr & b & Heq & Htr).
    rewrite Heq in Hin. cbn [fst] in Hin.
    rewrite Forall_forall in Htr. specialize (Htr acc Hin).
    destruct Htr as [-> | ->], Hacc as [? | ?]; discriminate.
Qed.

(** ** Registry *)

Lemma wf_new_manager : wf_manager new_manager.
Proof. split; cbn; constructor. Qed.

Lemma wf_add_obstacle m c r sd :
  wf_manager m → wf_manager (add_obstacle m c r sd).1.
Proof.
  intros [Hnd Hlt]. split; cbn.
  - rewrite fmap_app. cbn. apply NoDup_app. split; [exact Hnd|]. split.
    + intros i Hi Hi'. apply list_elem_of_singleton in Hi'. subst i.
      apply list_elem_of_fmap in Hi as (o & Ho & Hin).
      rewrite Forall_forall in Hlt. specialize (Hlt o Hin). lia.
    + apply NoDup_singleton.
  - apply Forall_app. split.
    + eapply Forall_impl; [exact Hlt|]. cbn. intros; lia.
    + constructor; [cbn; lia | constructor].
Qed.

Lemma list_remove_middle o l1 l2 :
  oid o ∉ oid <$> l1 → list_remove o (l1 ++ o :: l2) = l1 ++ l2.
Proof.
  induction l1 as [|a l1 IH]; cbn; intros Hni.
  - by rewrite decide_True.
  - apply not_elem_of_cons in Hni as [Hne Hni].
    rewrite decide_False by congruence. by rewrite IH.
Qed.

Lemma wf_remove_obstacle m o :
  wf_manager m → wf_manager (remove_obstacle m o).1.
Proof.
  intros [Hnd Hlt]. unfold remove_obstacle. case_decide; [|by split].
  cbn. assert (Hsub : list_remove o (obstacles m) `sublist_of` obstacles m).
  { clear. induction (obstacles m) as [|a l IH]; cbn; [constructor|].
    case_decide; [by apply sublist_cons | by apply sublist_skip]. }
  split; cbn.
  - eapply sublist_NoDup; [exact Hnd|]. by apply fmap_sublist.
  - rewrite Forall_forall in Hlt |- *. intros x Hx. apply Hlt.
    eapply elem_of_sublist; eauto.
Qed.

(** The search loop returns the first obstacle of minimal distance. *)
Lemma nearest_loop coords l : ∀ l0 o mid,
  let d := λ o', calculate_distance coords (center o') in
  Forall (λ o', d o < d o') l0 →
  Forall (λ o', d o <= d o') mid →
  ∃ l1 o2 l2,
    l0 ++ o :: mid ++ l = l1 ++ o2 :: l2 ∧
    foldl (nearest_step coords) (Some o, Fin (d o)) l = (Some o2, Fin (d o2)) ∧
    Forall (λ o', d o2 < d o') l1 ∧ Forall (λ o', d o2 <= d o') l2.
Proof.
  cbv zeta.
  induction l as [|a l IH]; intros l0 o mid Hl0 Hmid.
  - exists l0, o, mid. rewrite app_nil_r. done.
  - cbn [foldl nearest_step lt_xfloat]. case_bool_decide as Hlt.
    + destruct (IH (l0 ++ o :: mid) a []) as (l1 & o2 & l2 & Heq & Hf & H1 & H2).
      * apply Forall_app. split; [|constructor].
        -- eapply Forall_impl; [exact Hl0|]. cbn. intros; lra.
        -- exact Hlt.
        -- eapply Forall_impl; [exact Hmid|]. cbn. intros; lra.
      * constructor.
      * exists l1, o2, l2. split; [|done].
        rewrite <- Heq. cbn. by rewrite <- !app_assoc.
    + destruct (IH l0 o (mid ++ [a])) as (l1 & o2 & l2 & Heq & Hf & H1 & H2).
      * exact Hl0.
      * apply Forall_app. split; [exact Hmid|].
        constructor; [lra | constructor].
      * exists l1, o2, l2. split; [|done].
        rewrite <- Heq. by rewrite <- !app_assoc.
Qed.

Lemma remove_nearest_nonempty m coords threshold_m a l :
  wf_manager m → obstacles m = a :: l →
  let d := λ o', calculate_distance coords (center o') in
  ∃ l1 o l2,
    obstacles m = l1 ++ o :: l2 ∧
    remove_nearest_obstacle m coords threshold_m
      = (mkManager (l1 ++ l2) (next_oid m), Some o) ∧
    Forall (λ o', d o < d o') l1 ∧ Forall (λ o', d o <= d o') l2.
Proof.
  intros [Hnd _] Hobs d. subst d. unfold remove_nearest_obstacle. rewrite Hobs.
  cbn [foldl nearest_step lt_xfloat].
  destruct (nearest_loop coords l [] a []) as (l1 & o & l2 & Heq & Hf & H1 & H2);
    [constructor..|].
  cbn [app] in Heq. cbv zeta in Hf. rewrite Hf.
  exists l1, o, l2. split; [exact Heq|]. split; [|done].
  unfold remove_obstacle. rewrite Hobs, Heq.
  rewrite Hobs, Heq in Hnd. rewrite fmap_app in Hnd. cbn in Hnd.
  apply NoDup_app in Hnd as (_ & Hdis & _).
  rewrite decide_True.
  - cbn. f_equal. f_equal. apply list_remove_middle.
    intros Hin. apply (Hdis _ Hin). by left.
  - rewrite fmap_app. cbn. apply elem_of_app. right. by left.
Qed.

(** C8: on a registry with at least one obstacle the call removes and
    returns the obstacle nearest to the query point, the first inserted one
    among equally near ones, whatever [threshold_m] is; on the empty
    registry it returns none and changes nothing; and adding one obstacle to
    an empty registry and then removing the nearest one, at any query point
    and for any threshold, returns that obstacle and leaves the registry
    empty. *)
Theorem C8_remove_nearest_ignores_threshold (m : ObstacleManager)
    (coords : Point) (threshold_m : R) :
  wf_manager m →
  let d := λ o', calculate_distance coords (center o') in
  match obstacles m with
  | [] => remove_nearest_obstacle m coords threshold_m = (m, None)
  | _ :: _ =>
    ∃ l1 o l2,
      obstacles m = l1 ++ o :: l2 ∧
      remove_nearest_obstacle m coords threshold_m
        = (mkManager (l1 ++ l2) (next_oid m), Some o) ∧
      Forall (λ o', d o < d o') l1 ∧ Forall (λ o', d o <= d o') l2
  end ∧
  (∀ threshold' : R,
      remove_nearest_obstacle m coords threshold'
      = remove_nearest_obstacle m coords threshold_m) ∧
  (∀ (n : nat) (c : Point) (r sd : R),
      let added := add_obstacle (mkManager [] n) c r sd in
      added.2 = mkObstacle n c r sd ∧
      obstacles added.1 = [added.2] ∧
      remove_nearest_obstacle added.1 coords threshold_m
      = (mkManager [] (S n), Some added.2)).
Proof.
  intros Hwf d. split; [|split].
  - destruct (obstacles m) as [|a l] eqn:Hobs.
    + unfold remove_nearest_obstacle. by rewrite Hobs.
    + destruct (remove_nearest_nonempty m coords threshold_m a l Hwf Hobs)
        as (l1 & o & l2 & H1 & H2 & H3 & H4).
      exists l1, o, l2. rewrite <- Hobs. done.
  - reflexivity.
  - intros n c r sd added. split; [done|]. split; [done|].
    unfold remove_nearest_obstacle, remove_obstacle. cbn.
    rewrite decide_True by (by left). cbn. by rewrite decide_True.
Qed.

Lemma C8_remove_nearest_ignores_threshold_witness :
  let m0 := (add_obstacle new_manager (0, 0) 50 1).1 in
  let m := (add_obstacle m0 (1, 1) 20 1).1 in
  wf_manager m ∧
  ∃ l1 o l2,
    obstacles m = l1 ++ o :: l2 ∧
    remove_nearest_obstacle m (0, 0) 50
      = (mkManager (l1 ++ l2) (next_oid m), Some o).
Proof.
  intros m0 m.
  assert (Hwf : wf_manager m).
  { apply wf_add_obstacle, wf_add_obstacle, wf_new_manager. }
  split; [exact Hwf|].
  destruct (C8_remove_nearest_ignores_threshold m (0, 0) 50 Hwf)
    as [(l1 & o & l2 & H1 & H2 & _) _].
  exists l1, o, l2. by split.
Defined.

(** ** Scan segmenter *)

(** Sortedness of a list of numerals. *)
Ltac solve_sorted :=
  repeat first [ apply Sorted_nil | apply Sorted_cons
               | apply HdRel_nil | apply HdRel_cons ];
  lra.

(** [sorted] is characterised by its result: the one sorted rearrangement. *)
Lemma sorted_unique (l s : list R) : Sorted Rle s → s ≡ₚ l → sorted l = s.
Proof.
  intros Hs Hp. apply (Sorted_unique Rle).
  - apply Sorted_merge_sort; tc_solve.
  - exact Hs.
  - unfold sorted. rewrite merge_sort_Permutation. by symmetry.
Qed.

Lemma adjacent_distances_snd waypoints :
  (λ d : nat * nat * R, d.2) <$> adjacent_distances waypoints
  = (λ i, calculate_distance (waypoints !!! i) (waypoints !!! S i))
      <$> seq 0 (length waypoints - 1).
Proof. unfold adjacent_distances. by rewrite <- list_fmap_compose. Qed.

Lemma identify_scan_segments_eq (waypoints : list Point) (s : list R) :
  (2 ≤ length waypoints)%nat →
  let N := (length waypoints - 1)%nat in
  let dist := λ i, calculate_distance (waypoints !!! i) (waypoints !!! S i) in
  Sorted Rle s → s ≡ₚ dist <$> seq 0 N →
  _identify_scan_segments waypoints
  = (λ i, (if decide (dist i > 0.6 * (s !!! (N / 2)%nat)) then scan else turn,
           (i, S i))) <$> seq 0 N.
Proof.
  intros Hlen N dist Hs Hp. unfold _identify_scan_segments.
  rewrite decide_False by lia.
  destruct (adjacent_distances waypoints) as [|d0 ds] eqn:Hadj.
  { apply (f_equal length) in Hadj. unfold adjacent_distances in Hadj.
    rewrite length_fmap, length_seq in Hadj. cbn in Hadj. lia. }
  rewrite <- Hadj. rewrite adjacent_distances_snd. fold N. fold dist.
  rewrite (sorted_unique _ s Hs Hp).
  assert (HlenS : length s = N).
  { rewrite Hp, length_fmap, length_seq. done. }
  rewrite HlenS. unfold adjacent_distances. fold N.
  rewrite <- list_fmap_compose. apply list_fmap_ext. intros _ i _. cbn.
  fold dist. rewrite (Rmult_comm (s !!! _) 0.6). by destruct (decide _).
Qed.

Lemma alternating_perm (a b : R) : [a; b; a; b] ≡ₚ [b; b; a; a].
Proof.
  etrans; [apply Permutation_swap|]. apply Permutation_skip.
  symmetry. apply (Permutation_cons_append [a; a] b).
Qed.

Lemma calculate_distance_equator (a b : R) :
  a <= b → calculate_distance (0, a) (0, b) = (b - a) * deg_m.
Proof.
  intros Hab. unfold calculate_distance, radians, deg_m.
  replace ((0 + 0) / 2 * (PI / 180)) with 0 by lra. rewrite cos_0.
  replace ((b - a) * (PI / 180) * 1 * ((b - a) * (PI / 180) * 1)
           + (0 - 0) * (PI / 180) * ((0 - 0) * (PI / 180)))
    with (((b - a) * (PI / 180)) * ((b - a) * (PI / 180))) by ring.
  rewrite sqrt_square; [ring|]. pose proof PI_RGT_0. nra.
Qed.

(** C5: for at least two waypoints the labels are, pair by pair and in
    order, [scan] where the distance of the pair is strictly greater than
    0.6 times the element at index [N / 2] of the sorted list of the [N]
    distances, and [turn] otherwise; for distances 100, 5, 100, 5 that
    element is 100, the threshold is 60 and the labels are scan, turn,
    scan, turn. *)
Theorem C5_segmenter_median_threshold (waypoints : list Point) (s : list R) :
  (2 ≤ length waypoints)%nat →
  let N := (length waypoints - 1)%nat in
  let dist := λ i, calculate_distance (waypoints !!! i) (waypoints !!! S i) in
  Sorted Rle s → s ≡ₚ dist <$> seq 0 N →
  let median := s !!! (N / 2)%nat in
  let threshold := 0.6 * median in
  length (_identify_scan_segments waypoints) = N ∧
  _identify_scan_segments waypoints
  = (λ i, (if decide (dist i > threshold) then scan else turn, (i, S i)))
      <$> seq 0 N ∧
  (dist <$> seq 0 N = [100; 5; 100; 5] →
   s = [5; 5; 100; 100] ∧ median = 100 ∧ threshold = 60 ∧
   _identify_scan_segments waypoints
   = [(scan, (0, 1)); (turn, (1, 2)); (scan, (2, 3)); (turn, (3, 4))]%nat).
Proof.
  intros Hlen N dist Hs Hp median threshold.
  pose proof (identify_scan_segments_eq waypoints s Hlen Hs Hp) as Heq.
  fold N dist median threshold in Heq.
  split; [|split; [exact Heq|]].
  - rewrite Heq, length_fmap, length_seq. done.
  - intros Hds.
    assert (HN : N = 4%nat).
    { apply (f_equal length) in Hds. rewrite length_fmap, length_seq in Hds.
      exact Hds. }
    assert (Hsv : s = [5; 5; 100; 100]).
    { apply (Sorted_unique Rle); [exact Hs| |].
      - solve_sorted.
      - rewrite Hp, Hds. apply alternating_perm. }
    assert (Hm : median = 100).
    { unfold median. rewrite HN, Hsv. reflexivity. }
    assert (Ht : threshold = 60).
    { unfold threshold. rewrite Hm. lra. }
    split; [exact Hsv|]. split; [exact Hm|]. split; [exact Ht|].
    rewrite Heq, Ht. rewrite HN in Hds |- *. cbn in Hds |- *.
    injection Hds as -> -> -> ->.
    rewrite (decide_True (P := 100 > 60)) by lra.
    rewrite (decide_False (P := 5 > 60)) by lra.
    reflexivity.
Qed.

Lemma C5_segmenter_median_threshold_witness :
  (2 ≤ length equator_path)%nat ∧
  Sorted Rle [5; 5; 100; 100] ∧
  _identify_scan_segments equator_path
  = [(scan, (0, 1)); (turn, (1, 2)); (scan, (2, 3)); (turn, (3, 4))]%nat.
Proof.
  assert (Hlen : (2 ≤ length equator_path)%nat) by (cbn; lia).
  assert (Hs : Sorted Rle [5; 5; 100; 100]) by solve_sorted.
  assert (Hds : (λ i, calculate_distance (equator_path !!! i) (equator_path !!! S i))
                  <$> seq 0 (length equator_path - 1) = [100; 5; 100; 5]).
  { pose proof deg_m_pos as Hk. cbn.
    assert (Hdiv : ∀ x y, 0 <= x → x <= y → x / deg_m <= y / deg_m).
    { intros x y _ Hxy. apply Rmult_le_compat_r; [|exact Hxy].
      apply Rlt_le, Rinv_0_lt_compat, Hk. }
    replace 0 with (0 / deg_m) at 2 by (field; lra).
    rewrite !calculate_distance_equator by (apply Hdiv; lra).
    repeat f_equal; field; lra. }
  assert (Hp : [5; 5; 100; 100] ≡ₚ
               (λ i, calculate_distance (equator_path !!! i) (equator_path !!! S i))
                  <$> seq 0 (length equator_path - 1)).
  { rewrite Hds. symmetry. apply alternating_perm. }
  split; [exact Hlen|]. split; [exact Hs|].
  destruct (C5_segmenter_median_threshold equator_path [5; 5; 100; 100]
              Hlen Hs Hp) as (_ & _ & Hex).
  exact (proj2 (proj2 (proj2 (Hex Hds)))).
Defined.

(** ** Path assembler without collisions *)

Lemma identify_scan_segments_shape waypoints :
  ∃ label : nat → seg_type,
    _identify_scan_segments waypoints
    = (λ i, (label i, (i, S i))) <$> seq 0 (length waypoints - 1).
Proof.
  unfold _identify_scan_segments. case_decide as Hlen.
  - exists (λ _, turn). by replace (length waypoints - 1)%nat with 0%nat by lia.
  - set (th := _ * 0.6).
    exists (λ i, if decide (calculate_distance (waypoints !!! i) (waypoints !!! S i) > th)
                 then scan else turn).
    assert (Heq : (λ '(idx_start, idx_end, dist),
                     if decide (dist > th) then (scan, (idx_start, idx_end))
                     else (turn, (idx_start, idx_end)))
                    <$> adjacent_distances waypoints
                  = (λ i, (if decide (calculate_distance (waypoints !!! i)
                                        (waypoints !!! S i) > th)
                           then scan else turn, (i, S i)))
                      <$> seq 0 (length waypoints - 1)).
    { unfold adjacent_distances. rewrite <- list_fmap_compose.
      apply list_fmap_ext. intros _ i _. cbn. by destruct (decide _). }
    destruct (adjacent_distances waypoints) eqn:Hadj; [|exact Heq].
    rewrite <- Heq. reflexivity.
Qed.

Lemma add_unprocessed_old waypoints c st idx :
  emitted waypoints c st → (idx < c)%nat →
  add_unprocessed waypoints st idx = st.
Proof.
  intros [_ Hp] Hlt. unfold add_unprocessed.
  rewrite decide_False; [done|]. intros Hni. apply Hni, Hp, Hlt.
Qed.

Lemma add_unprocessed_next waypoints c st :
  emitted waypoints c st → (c < length waypoints)%nat →
  emitted waypoints (S c) (add_unprocessed waypoints st c).
Proof.
  intros [He Hp] Hlt. unfold add_unprocessed.
  rewrite decide_True by (rewrite Hp; lia).
  split; cbn [fst snd].
  - rewrite He. destruct (lookup_lt_is_Some_2 waypoints c Hlt) as [x Hx].
    rewrite (take_S_r _ _ x Hx). f_equal. f_equal.
    by apply list_lookup_total_correct.
  - intros j. rewrite elem_of_union, elem_of_singleton, Hp. lia.
Qed.

Lemma add_pair_emitted waypoints c st i :
  emitted waypoints c st → (S i < length waypoints)%nat →
  (c = 0%nat ∧ i = 0%nat) ∨ c = S i →
  emitted waypoints (S (S i))
    (add_unprocessed waypoints (add_unprocessed waypoints st i) (S i)).
Proof.
  intros Hst Hlt [[-> ->] | ->].
  - apply add_unprocessed_next; [|lia]. apply add_unprocessed_next; [done|lia].
  - rewrite (add_unprocessed_old waypoints (S i) st i) by (done || lia).
    apply add_unprocessed_next; [done|lia].
Qed.

Lemma route_step_free m waypoints boundary label c st i :
  emitted waypoints c st → (S i < length waypoints)%nat →
  (c = 0%nat ∧ i = 0%nat) ∨ c = S i →
  check_segment_collision m (waypoints !!! i) (waypoints !!! S i) = [] →
  ∃ st', route_step m waypoints boundary st (label, (i, S i)) = Ok st' ∧
         emitted waypoints (S (S i)) st'.
Proof.
  intros Hst Hlt Hc Hfree. unfold route_step. destruct label.
  - rewrite Hfree. eexists; split; [reflexivity|]. by apply add_pair_emitted with c.
  - eexists; split; [reflexivity|]. cbn [foldl]. by apply add_pair_emitted with c.
Qed.

Lemma route_loop_free m waypoints boundary label : ∀ len i c st,
  collision_free m waypoints →
  emitted waypoints c st → (i + len = length waypoints - 1)%nat →
  (c = 0%nat ∧ i = 0%nat) ∨ c = S i →
  ∃ st' c', for_each (route_step m waypoints boundary) st
              ((λ i, (label i, (i, S i))) <$> seq i len) = Ok st' ∧
            emitted waypoints c' st' ∧
            ((len = 0%nat ∧ c' = c) ∨ c' = length waypoints).
Proof.
  induction len as [|len IH]; intros i c st Hfree Hst Hlen Hc.
  - exists st, c. cbn. split; [done|]. split; [done|]. by left.
  - cbn [seq fmap list_fmap for_each].
    destruct (route_step_free m waypoints boundary (label i) c st i)
      as (st1 & -> & Hst1); [done | lia | done | apply Hfree; lia |].
    cbn [mbind result_bind].
    destruct (IH (S i) (S (S i)) st1) as (st' & c' & Hrun & Hst' & Hc');
      [done | done | lia | by right |].
    exists st', c'. split; [exact Hrun|]. split; [exact Hst'|]. right.
    destruct Hc' as [[-> ->] | ->]; lia.
Qed.

Lemma final_sweep waypoints : ∀ len a c st,
  emitted waypoints c st → (a ≤ c)%nat → (c ≤ length waypoints)%nat →
  (a + len = length waypoints)%nat →
  (foldl (add_unprocessed waypoints) st (seq a len)).1 = waypoints.
Proof.
  induction len as [|len IH]; intros a c st Hst Hac Hcn Hlen.
  - cbn. destruct Hst as [-> _]. apply take_ge. lia.
  - cbn [seq foldl]. destruct (decide (a < c)%nat) as [Hlt|Hge].
    + rewrite (add_unprocessed_old waypoints c st a) by done.
      apply (IH (S a) c); (done || lia).
    + assert (a = c) as -> by lia.
      apply (IH (S c) (S c)); [|lia..].
      apply add_unprocessed_next; [done|lia].
Qed.

Lemma route_collision_free m waypoints boundary :
  collision_free m waypoints →
  filter_waypoints_with_detour m waypoints boundary = Ok waypoints.
Proof.
  intros Hfree. unfold filter_waypoints_with_detour.
  destruct waypoints as [|w ws] eqn:Hw; [done|].
  destruct (obstacles m) as [|o os] eqn:Ho; [done|].
  rewrite <- Hw in *. clear Hw.
  destruct (identify_scan_segments_shape waypoints) as [label ->].
  assert (H0 : emitted waypoints 0 ([], ∅)).
  { split; cbn; [by rewrite take_0|]. intros j. rewrite elem_of_empty. lia. }
  destruct (route_loop_free m waypoints boundary label
              (length waypoints - 1) 0 0 ([], ∅))
    as (st' & c' & -> & Hst' & Hc'); [done | done | lia | by left |].
  cbn [mbind result_bind]. f_equal.
  apply (final_sweep waypoints (length waypoints) 0 c'); [done | lia | | lia].
  destruct Hc' as [[_ ->] | ->]; lia.
Qed.

Lemma collision_free_short m waypoints :
  (length waypoints ≤ 1)%nat → collision_free m waypoints.
Proof. intros Hlen i Hi. lia. Qed.

Lemma collision_free_empty_registry m waypoints :
  obstacles m = [] → collision_free m waypoints.
Proof. intros Hobs i _. unfold check_segment_collision. by rewrite Hobs. Qed.

(** *** Segments that stay on one side of an obstacle at the origin *)

Lemma PI_gt_3 : 3 < PI.
Proof. pose proof PI2_3_2. lra. Qed.

Lemma deg_m_gt : 1851 < deg_m.
Proof. unfold deg_m, earth_radius_m. pose proof PI_gt_3. lra. Qed.

Lemma to_meters_origin lat lon :
  to_meters 0 0 lat lon = (lon * deg_m, lat * deg_m).
Proof.
  unfold to_meters, radians, deg_m.
  replace (0 * (PI / 180)) with 0 by lra. rewrite cos_0. f_equal; ring.
Qed.

Lemma clamp_bounds t : 0 <= Rmax 0 (Rmin 1 t) <= 1.
Proof.
  unfold Rmax, Rmin. repeat destruct (Rle_dec _ _); lra.
Qed.

Lemma outside_circle (x y h r : R) :
  0 < h → r * r < h * h → h <= y ∨ y <= - h → ¬ x * x + y * y <= r * r.
Proof.
  intros Hh Hr Hy Hle.
  assert (0 <= (y - h) * (y + h)) by (destruct Hy; nra).
  nra.
Qed.

Lemma between (a b t l : R) :
  0 <= t <= 1 → (l <= a ∧ l <= b) ∨ (a <= - l ∧ b <= - l) →
  l <= a + t * (b - a) ∨ a + t * (b - a) <= - l.
Proof. intros Ht [[Ha Hb] | [Ha Hb]]; [left | right]; nra. Qed.

Lemma far_by_lat (p1 p2 : Point) (r l : R) :
  0 < l → r * r < (l * deg_m) * (l * deg_m) →
  (l <= p1.1 ∧ l <= p2.1) ∨ (p1.1 <= - l ∧ p2.1 <= - l) →
  line_intersects_circle p1 p2 (0, 0) r = false.
Proof.
  intros Hl Hr Hside. pose proof deg_m_pos as Hk.
  destruct p1 as [lat1 lon1], p2 as [lat2 lon2]. cbn [fst snd] in Hside.
  assert (Hside' : (l * deg_m <= lat1 * deg_m ∧ l * deg_m <= lat2 * deg_m) ∨
                   (lat1 * deg_m <= - (l * deg_m) ∧ lat2 * deg_m <= - (l * deg_m))).
  { destruct Hside as [[H1 H2] | [H1 H2]]; [left | right]; split; nra. }
  assert (Hh : 0 < l * deg_m) by nra.
  unfold line_intersects_circle. rewrite !to_meters_origin.
  case_decide; apply bool_decide_eq_false.
  - apply (outside_circle _ _ (l * deg_m)); [done | done |].
    destruct Hside' as [[H1 _] | [H1 _]]; [by left | by right].
  - intros Hlt. eapply (outside_circle _ _ (l * deg_m)); [done | done | | ].
    2: { apply Rlt_le, Hlt. }
    apply between; [apply clamp_bounds | exact Hside'].
Qed.

Lemma Rplus_comm_sq (a b : R) : a * a + b * b = b * b + a * a.
Proof. ring. Qed.

Lemma far_by_lon (p1 p2 : Point) (r l : R) :
  0 < l → r * r < (l * deg_m) * (l * deg_m) →
  (l <= p1.2 ∧ l <= p2.2) ∨ (p1.2 <= - l ∧ p2.2 <= - l) →
  line_intersects_circle p1 p2 (0, 0) r = false.
Proof.
  intros Hl Hr Hside. pose proof deg_m_pos as Hk.
  destruct p1 as [lat1 lon1], p2 as [lat2 lon2]. cbn [fst snd] in Hside.
  assert (Hside' : (l * deg_m <= lon1 * deg_m ∧ l * deg_m <= lon2 * deg_m) ∨
                   (lon1 * deg_m <= - (l * deg_m) ∧ lon2 * deg_m <= - (l * deg_m))).
  { destruct Hside as [[H1 H2] | [H1 H2]]; [left | right]; split; nra. }
  assert (Hh : 0 < l * deg_m) by nra.
  unfold line_intersects_circle. rewrite !to_meters_origin.
  case_decide; apply bool_decide_eq_false; rewrite Rplus_comm_sq.
  - apply (outside_circle _ _ (l * deg_m)); [done | done |].
    destruct Hside' as [[H1 _] | [H1 _]]; [by left | by right].
  - intros Hlt. eapply (outside_circle _ _ (l * deg_m)); [done | done | | ].
    2: { apply Rlt_le, Hlt. }
    apply between; [apply clamp_bounds | exact Hside'].
Qed.

Lemma far_path_collision_free : collision_free origin_registry far_path.
Proof.
  pose proof deg_m_gt as Hk.
  assert (Hr : (50 + 1) * (50 + 1) < 1 * deg_m * (1 * deg_m)) by nra.
  intros i Hi. unfold check_segment_collision. cbn [origin_registry
    add_obstacle new_manager obstacles fst app filter list_filter
    center effective_radius radius safe_distance].
  destruct i as [|[|i]]; [| |cbn in Hi; lia].
  - rewrite decide_False; [done|]. apply not_true_iff_false.
    apply (far_by_lat _ _ _ 1); cbn; [lra | exact Hr | left; lra].
  - rewrite decide_False; [done|]. apply not_true_iff_false.
    apply (far_by_lon _ _ _ 1); cbn; [lra | exact Hr | left; lra].
Qed.

(** C1: when no adjacent pair of waypoints collides with a registered
    obstacle, in particular for at most one waypoint or an empty registry,
    [filter_waypoints_with_detour] returns the waypoints it was given, the
    same points in the same order. *)
Theorem C1_route_identity_without_collision (m : ObstacleManager)
    (waypoints : list Point) (boundary_corners : option (list Point)) :
  collision_free m waypoints ∨ (length waypoints ≤ 1)%nat ∨ obstacles m = [] →
  filter_waypoints_with_detour m waypoints boundary_corners = Ok waypoints.
Proof.
  intros [H | [H | H]]; apply route_collision_free.
  - exact H.
  - by apply collision_free_short.
  - by apply collision_free_empty_registry.
Qed.

Lemma C1_route_identity_without_collision_witness :
  collision_free origin_registry far_path ∧
  filter_waypoints_with_detour origin_registry far_path None = Ok far_path.
Proof.
  split; [exact far_path_collision_free|].
  apply (C1_route_identity_without_collision origin_registry far_path None).
  left. exact far_path_collision_free.
Defined.

(** ** Detour planner *)

Lemma calculate_intersection_eq p1 p2 obstacle :
  _calculate_line_circle_intersection p1 p2 obstacle =
  if decide (quad_disc p1 p2 obstacle < 0 ∨ quad_a p1 p2 obstacle = 0) then []
  else (λ t, bypass_point p1 p2 obstacle t (0, 0))
         <$> filter on_segment [root1 p1 p2 obstacle; root2 p1 p2 obstacle].
Proof.
  unfold _calculate_line_circle_intersection, root1, root2, quad_disc, quad_a,
    quad_b, quad_c, bypass_point, local_segment.
  destruct p1 as [lat1 lon1], p2 as [lat2 lon2], obstacle as [i [cx cy] r sd].
  cbn [center fst snd to_meters].
  case_decide; [reflexivity|].
  erewrite list_fmap_ext; [reflexivity|].
  intros _ t _. cbn. f_equal; ring.
Qed.

Lemma intersection_count p1 p2 obstacle :
  length (_calculate_line_circle_intersection p1 p2 obstacle) =
  if decide (quad_disc p1 p2 obstacle < 0 ∨ quad_a p1 p2 obstacle = 0) then 0%nat
  else length (filter on_segment [root1 p1 p2 obstacle; root2 p1 p2 obstacle]).
Proof.
  rewrite calculate_intersection_eq. case_decide; [done|]. by rewrite length_fmap.
Qed.

Lemma valid_detour_points_none dps : valid_detour_points None dps = Ok dps.
Proof. induction dps as [|dp dps IH]; cbn; [done|]. by rewrite IH. Qed.

Lemma valid_detour_points_rejected polygon dps :
  Forall (λ dp, point_in_polygon dp polygon = Ok false) dps →
  valid_detour_points (Some polygon) dps = Ok [].
Proof.
  induction 1 as [|dp dps Hdp _ IH]; cbn; [done|]. by rewrite Hdp, IH.
Qed.

Lemma valid_detour_points_accepted polygon dps :
  Forall (λ dp, point_in_polygon dp polygon = Ok true) dps →
  valid_detour_points (Some polygon) dps = Ok dps.
Proof.
  induction 1 as [|dp dps Hdp _ IH]; cbn; [done|]. by rewrite Hdp, IH.
Qed.

Lemma segment_scan_line_few_roots p1 p2 obstacle others boundary_corners :
  (length (filter on_segment [root1 p1 p2 obstacle; root2 p1 p2 obstacle]) < 2)%nat →
  _segment_scan_line p1 p2 (obstacle :: others) boundary_corners = Ok [p1; p2].
Proof.
  intros Hn. unfold _segment_scan_line. case_decide as Hlen; [done|].
  rewrite intersection_count in Hlen. case_decide; lia.
Qed.

(** With no boundary, or a boundary of at least one vertex, the
    segmentation returns for every segment; a boundary list without a
    vertex makes [polygon[0]] raise as soon as a bypass point is tested. *)
Lemma point_in_polygon_total point v polygon :
  ∃ b, point_in_polygon point (v :: polygon) = Ok b.
Proof.
  unfold point_in_polygon, point_in_polygon_trace. destruct point as [lat lon].
  destruct (pip_loop_sound lat lon (polygon_edge_ends (v :: polygon))
              (mkPip false None v)) as (tr & b & -> & _).
  by exists b.
Qed.

Lemma valid_detour_points_total boundary_corners dps :
  boundary_corners = None ∨ (∃ v polygon, boundary_corners = Some (v :: polygon)) →
  ∃ l, valid_detour_points boundary_corners dps = Ok l.
Proof.
  intros [-> | (v & polygon & ->)].
  - exists dps. apply valid_detour_points_none.
  - induction dps as [|dp dps [l IH]]; cbn; [by eexists|].
    destruct (point_in_polygon_total dp v polygon) as [b ->]. rewrite IH.
    cbn. by eexists.
Qed.

Lemma segment_scan_line_total p1 p2 obstacle others boundary_corners :
  boundary_corners = None ∨ (∃ v polygon, boundary_corners = Some (v :: polygon)) →
  ∃ l, _segment_scan_line p1 p2 (obstacle :: others) boundary_corners = Ok l.
Proof.
  intros Hb. unfold _segment_scan_line. case_decide; [by eexists|].
  destruct (valid_detour_points_total boundary_corners
              (_generate_tangent_detour p1 p2 obstacle
                 (_calculate_line_circle_intersection p1 p2 obstacle !!! 0%nat)
                 (_calculate_line_circle_intersection p1 p2 obstacle !!! 1%nat)) Hb)
    as [l ->].
  cbn. destruct l; by eexists.
Qed.

(** C7: each degenerate case is resolved by the fallback and raises
    nothing: when [a = 0], or the discriminant is negative, or fewer than
    two roots lie in [0, 1], or the supplied boundary polygon rejects every
    bypass point, [_segment_scan_line] returns exactly [[p1, p2]]. *)
Theorem C7_degenerate_cases_fall_back (p1 p2 : Point) (obstacle : Obstacle)
    (others : list Obstacle) (boundary_corners : option (list Point)) :
  let ips := _calculate_line_circle_intersection p1 p2 obstacle in
  quad_a p1 p2 obstacle = 0 ∨
  quad_disc p1 p2 obstacle < 0 ∨
  (length (filter on_segment [root1 p1 p2 obstacle; root2 p1 p2 obstacle]) < 2)%nat ∨
  (∃ polygon, boundary_corners = Some polygon ∧
     Forall (λ dp, point_in_polygon dp polygon = Ok false)
       (_generate_tangent_detour p1 p2 obstacle (ips !!! 0%nat) (ips !!! 1%nat))) →
  _segment_scan_line p1 p2 (obstacle :: others) boundary_corners = Ok [p1; p2].
Proof.
  intros ips Hcase.
  destruct Hcase as [Ha | [Hd | [Hn | (polygon & -> & Hrej)]]].
  - unfold _segment_scan_line. rewrite intersection_count.
    rewrite (decide_True (P := _ ∨ _)) by (by right).
    by rewrite decide_True by (cbn; lia).
  - unfold _segment_scan_line. rewrite intersection_count.
    rewrite (decide_True (P := _ ∨ _)) by (by left).
    by rewrite decide_True by (cbn; lia).
  - by apply segment_scan_line_few_roots.
  - unfold _segment_scan_line. fold ips. case_decide; [done|].
    by rewrite (valid_detour_points_rejected _ _ Hrej).
Qed.

Lemma C7_degenerate_cases_fall_back_witness :
  let obstacle := mkObstacle 0 (0, 0) 50 1 in
  quad_a (0, 0) (0, 0) obstacle = 0 ∧
  _segment_scan_line (0, 0) (0, 0) [obstacle] None = Ok [(0, 0); (0, 0)].
Proof.
  intros obstacle.
  assert (Ha : quad_a (0, 0) (0, 0) obstacle = 0).
  { unfold quad_a, local_segment, to_meters. cbn. ring. }
  split; [exact Ha|].
  apply (C7_degenerate_cases_fall_back (0, 0) (0, 0) obstacle [] None).
  left. exact Ha.
Defined.

Lemma quad_a_nonneg p1 p2 obstacle : 0 <= quad_a p1 p2 obstacle.
Proof.
  unfold quad_a. destruct (local_segment p1 p2 obstacle) as [[[x1 y1] dx] dy].
  nra.
Qed.

Lemma segment_length_pos p1 p2 obstacle :
  ¬ segment_length p1 p2 obstacle < 0.001 →
  0 < segment_length p1 p2 obstacle ∧ 0 < quad_a p1 p2 obstacle.
Proof.
  unfold segment_length. intros Hlen.
  assert (Hs : 0 < sqrt (quad_a p1 p2 obstacle)) by lra.
  split; [exact Hs|].
  destruct (Rle_lt_dec (quad_a p1 p2 obstacle) 0) as [Hle|]; [|done].
  rewrite (sqrt_neg_0 _ Hle) in Hs. lra.
Qed.

Lemma bypass_point_u_eq p1 p2 obstacle t off :
  0 < segment_length p1 p2 obstacle →
  bypass_point_u p1 p2 obstacle t off = bypass_point p1 p2 obstacle t off.
Proof.
  intros Hlen. unfold bypass_point_u, bypass_point.
  destruct (local_segment p1 p2 obstacle) as [[[x1 y1] dx] dy].
  f_equal; field; lra.
Qed.

Lemma sqrt_le_of_sq (d y : R) : 0 <= y → d <= y * y → sqrt d <= y.
Proof.
  intros Hy Hd. rewrite <- (sqrt_square y Hy). by apply sqrt_le_1_alt.
Qed.

Lemma sqrt_gt_of_sq (d y : R) : 0 <= y → y * y < d → y < sqrt d.
Proof.
  intros Hy Hd. rewrite <- (sqrt_square y Hy) at 1.
  apply sqrt_lt_1_alt. nra.
Qed.

(** Both roots lie on the segment when the parabola [a t^2 + b t + c] is
    non-negative at both ends and its vertex lies between them. *)
Lemma roots_on_segment p1 p2 obstacle :
  0 < quad_a p1 p2 obstacle → 0 <= quad_disc p1 p2 obstacle →
  0 <= quad_c p1 p2 obstacle →
  0 <= quad_a p1 p2 obstacle + quad_b p1 p2 obstacle + quad_c p1 p2 obstacle →
  - (2 * quad_a p1 p2 obstacle) <= quad_b p1 p2 obstacle <= 0 →
  on_segment (root1 p1 p2 obstacle) ∧ on_segment (root2 p1 p2 obstacle).
Proof.
  unfold on_segment, root1, root2, quad_disc.
  set (a := quad_a p1 p2 obstacle). set (b := quad_b p1 p2 obstacle).
  set (c := quad_c p1 p2 obstacle). intros Ha Hd Hc Hq Hb.
  set (sd := sqrt (b * b - 4 * a * c)).
  assert (Hs0 : 0 <= sd) by apply sqrt_pos.
  assert (Hs1 : sd <= - b) by (apply sqrt_le_of_sq; nra).
  assert (Hs2 : sd <= 2 * a + b) by (apply sqrt_le_of_sq; nra).
  assert (Hi : 0 < / (2 * a)) by (apply Rinv_0_lt_compat; lra).
  assert (H1 : (- b - sd) / (2 * a) * (2 * a) = - b - sd) by (field; lra).
  assert (H2 : (- b + sd) / (2 * a) * (2 * a) = - b + sd) by (field; lra).
  repeat split; unfold Rdiv in *; nra.
Qed.

(** With the first endpoint strictly inside the circle the first root is
    negative, so at most one root lies on the segment. *)
Lemma root1_negative p1 p2 obstacle :
  0 < quad_a p1 p2 obstacle → quad_c p1 p2 obstacle < 0 →
  root1 p1 p2 obstacle < 0.
Proof.
  unfold root1, quad_disc.
  set (a := quad_a p1 p2 obstacle). set (b := quad_b p1 p2 obstacle).
  set (c := quad_c p1 p2 obstacle). intros Ha Hc.
  set (sd := sqrt (b * b - 4 * a * c)).
  assert (Hs : Rabs b < sd).
  { apply sqrt_gt_of_sq; [apply Rabs_pos|].
    rewrite <- Rabs_mult, Rabs_right by nra. nra. }
  assert (Hb : - b <= Rabs b).
  { rewrite <- Rabs_Ropp. apply Rle_abs. }
  assert (Hi : 0 < / (2 * a)) by (apply Rinv_0_lt_compat; lra).
  unfold Rdiv. nra.
Qed.

Lemma segment_scan_line_detour p1 p2 obstacle others boundary_corners :
  let entry := bypass_point p1 p2 obstacle 0.25 (detour2 p1 p2 obstacle) in
  let exit := bypass_point p1 p2 obstacle 0.75 (detour2 p1 p2 obstacle) in
  0 <= quad_disc p1 p2 obstacle →
  on_segment (root1 p1 p2 obstacle) → on_segment (root2 p1 p2 obstacle) →
  ¬ segment_length p1 p2 obstacle < 0.001 →
  boundary_corners = None ∨
  (∃ polygon, boundary_corners = Some polygon ∧
              point_in_polygon entry polygon = Ok true ∧
              point_in_polygon exit polygon = Ok true) →
  _segment_scan_line p1 p2 (obstacle :: others) boundary_corners
  = Ok [p1; entry; exit; p2].
Proof.
  intros entry exit Hd H1 H2 Hlen Hb.
  destruct (segment_length_pos _ _ _ Hlen) as [Hpos Ha].
  unfold _segment_scan_line. rewrite intersection_count.
  rewrite (decide_False (P := _ ∨ _)) by (intros [?|?]; lra).
  cbn [filter list_filter].
  rewrite (decide_True (P := on_segment (root1 p1 p2 obstacle))) by exact H1.
  cbn [filter list_filter].
  rewrite (decide_True (P := on_segment (root2 p1 p2 obstacle))) by exact H2.
  cbn [length]. rewrite decide_False by lia.
  rewrite generate_tangent_detour_eq, decide_False by done.
  rewrite !bypass_point_u_eq by done. fold entry exit.
  destruct Hb as [-> | (polygon & -> & He & Hx)].
  - by rewrite valid_detour_points_none.
  - rewrite valid_detour_points_accepted; [done|].
    repeat constructor; done.
Qed.

(** The same segment with a boundary list that has no vertex: the first
    bypass point is tested against [polygon[0]]. *)
Lemma segment_scan_line_empty_boundary p1 p2 obstacle others :
  0 <= quad_disc p1 p2 obstacle →
  on_segment (root1 p1 p2 obstacle) → on_segment (root2 p1 p2 obstacle) →
  ¬ segment_length p1 p2 obstacle < 0.001 →
  _segment_scan_line p1 p2 (obstacle :: others) (Some []) = Raise IndexError.
Proof.
  intros Hd H1 H2 Hlen.
  destruct (segment_length_pos _ _ _ Hlen) as [Hpos Ha].
  unfold _segment_scan_line. rewrite intersection_count.
  rewrite (decide_False (P := _ ∨ _)) by (intros [?|?]; lra).
  cbn [filter list_filter].
  rewrite (decide_True (P := on_segment (root1 p1 p2 obstacle))) by exact H1.
  cbn [filter list_filter].
  rewrite (decide_True (P := on_segment (root2 p1 p2 obstacle))) by exact H2.
  cbn [length]. rewrite decide_False by lia.
  rewrite generate_tangent_detour_eq, decide_False by done.
  cbn [valid_detour_points]. unfold point_in_polygon at 1, point_in_polygon_trace.
  by destruct (bypass_point_u p1 p2 obstacle 0.25 (detour2 p1 p2 obstacle)).
Qed.

Lemma detour2_norm p1 p2 obstacle :
  0 < segment_length p1 p2 obstacle →
  sq_norm (detour2 p1 p2 obstacle) = (1.2 * effective_radius obstacle) ^ 2.
Proof.
  intros Hpos. unfold sq_norm, detour2, perp, detour_radius.
  assert (Hsq : segment_length p1 p2 obstacle * segment_length p1 p2 obstacle
                = quad_a p1 p2 obstacle).
  { unfold segment_length. apply sqrt_sqrt, quad_a_nonneg. }
  revert Hpos Hsq. unfold quad_a.
  destruct (local_segment p1 p2 obstacle) as [[[x1 y1] dx] dy].
  set (len := segment_length p1 p2 obstacle). intros Hpos Hsq. cbn [fst snd].
  assert (Hu : (dx / len) * (dx / len) + (dy / len) * (dy / len) = 1).
  { transitivity ((dx * dx + dy * dy) / (len * len)); [field; lra|].
    rewrite <- Hsq. field. lra. }
  nra.
Qed.

Lemma detour2_perpendicular p1 p2 obstacle :
  0 < segment_length p1 p2 obstacle →
  let '(x1, y1, dx, dy) := local_segment p1 p2 obstacle in
  (detour2 p1 p2 obstacle).1 * dx + (detour2 p1 p2 obstacle).2 * dy = 0.
Proof.
  intros Hpos. unfold detour2, perp. revert Hpos.
  set (len := segment_length p1 p2 obstacle).
  destruct (local_segment p1 p2 obstacle) as [[[x1 y1] dx] dy].
  intros Hpos. cbn [fst snd]. field. lra.
Qed.

Lemma segment_scan_line_short p1 p2 obstacle others boundary_corners :
  segment_length p1 p2 obstacle < 0.001 →
  _segment_scan_line p1 p2 (obstacle :: others) boundary_corners = Ok [p1; p2].
Proof.
  intros Hlen. unfold _segment_scan_line. case_decide; [done|].
  by rewrite generate_tangent_detour_eq, decide_True.
Qed.

Lemma root1_le_root2 p1 p2 obstacle :
  0 < quad_a p1 p2 obstacle → root1 p1 p2 obstacle <= root2 p1 p2 obstacle.
Proof.
  intros Ha. unfold root1, root2.
  pose proof (sqrt_pos (quad_disc p1 p2 obstacle)) as Hs.
  assert (Hi : 0 < / (2 * quad_a p1 p2 obstacle))
    by (apply Rinv_0_lt_compat; lra).
  unfold Rdiv. nra.
Qed.

(** *** Obstacles on the equator: the local plane is a scaled copy of the
    degree grid *)

Lemma to_meters_equator cy lat lon :
  to_meters 0 cy lat lon = ((lon - cy) * deg_m, lat * deg_m).
Proof.
  unfold to_meters, radians, deg_m.
  replace (0 * (PI / 180)) with 0 by lra. rewrite cos_0. f_equal; ring.
Qed.

Lemma to_latlon_equator cy x y :
  to_latlon 0 cy x y = (y / deg_m, cy + x / deg_m).
Proof.
  unfold to_latlon, radians, deg_m, earth_radius_m.
  replace (0 * (PI / 180)) with 0 by lra. rewrite cos_0.
  pose proof PI_RGT_0. f_equal; field; lra.
Qed.

Lemma local_segment_equator i cy r sd p1 p2 :
  local_segment p1 p2 (mkObstacle i (0, cy) r sd)
  = ((p1.2 - cy) * deg_m, p1.1 * deg_m,
     (p2.2 - cy) * deg_m - (p1.2 - cy) * deg_m, p2.1 * deg_m - p1.1 * deg_m).
Proof.
  unfold local_segment. cbn [center]. by rewrite !to_meters_equator.
Qed.

(** A segment whose endpoints are equally far from the centre is closest
    to it at its midpoint. *)
Lemma line_intersects_circle_symmetric p1 p2 c r x1 y1 x2 y2 :
  to_meters c.1 c.2 p1.1 p1.2 = (x1, y1) →
  to_meters c.1 c.2 p2.1 p2.2 = (x2, y2) →
  x1 * x1 + y1 * y1 = x2 * x2 + y2 * y2 →
  (x2 - x1) * (x2 - x1) + (y2 - y1) * (y2 - y1) ≠ 0 →
  line_intersects_circle p1 p2 c r
  = bool_decide (((x1 + x2) / 2) * ((x1 + x2) / 2)
                 + ((y1 + y2) / 2) * ((y1 + y2) / 2) < r * r).
Proof.
  destruct p1 as [lat1 lon1], p2 as [lat2 lon2], c as [cx cy]. cbn [fst snd].
  unfold line_intersects_circle. intros -> -> Hsym Hnd.
  rewrite decide_False by exact Hnd.
  assert (Ht : - (x1 * (x2 - x1) + y1 * (y2 - y1))
               / ((x2 - x1) * (x2 - x1) + (y2 - y1) * (y2 - y1)) = 1 / 2).
  { apply (Rmult_eq_reg_r ((x2 - x1) * (x2 - x1) + (y2 - y1) * (y2 - y1)));
      [|exact Hnd].
    unfold Rdiv at 1. rewrite Rmult_assoc, Rinv_l by exact Hnd. nra. }
  rewrite Ht.
  replace (Rmax 0 (Rmin 1 (1 / 2))) with (1 / 2).
  2: { unfold Rmax, Rmin. repeat destruct (Rle_dec _ _); lra. }
  apply bool_decide_ext. split; intros H; nra.
Qed.

(** C3 (as the code behaves): when both roots of the quadratic lie on the
    segment, the segment is at least a millimetre long in the local plane,
    and no boundary polygon is supplied or it accepts both bypass points,
    the planner returns [[p1, entry, exit, p2]]: [entry] and [exit] are the
    geographic images of the local points at [t = 0.25] and [t = 0.75] of
    [p1 -> p2], in this order, both displaced by the same offset, which is
    perpendicular to the segment and has magnitude 1.2 times the effective
    radius. *)
Theorem C3_detour_between_endpoints (p1 p2 : Point) (obstacle : Obstacle)
    (others : list Obstacle) (boundary_corners : option (list Point)) :
  let off := detour2 p1 p2 obstacle in
  let entry := bypass_point p1 p2 obstacle 0.25 off in
  let exit := bypass_point p1 p2 obstacle 0.75 off in
  0 <= quad_disc p1 p2 obstacle →
  on_segment (root1 p1 p2 obstacle) → on_segment (root2 p1 p2 obstacle) →
  ¬ segment_length p1 p2 obstacle < 0.001 →
  boundary_corners = None ∨
  (∃ polygon, boundary_corners = Some polygon ∧
              point_in_polygon entry polygon = Ok true ∧
              point_in_polygon exit polygon = Ok true) →
  _segment_scan_line p1 p2 (obstacle :: others) boundary_corners
  = Ok [p1; entry; exit; p2] ∧
  root1 p1 p2 obstacle <= root2 p1 p2 obstacle ∧
  sq_norm off = (1.2 * effective_radius obstacle) ^ 2 ∧
  (let '(x1, y1, dx, dy) := local_segment p1 p2 obstacle in
   off.1 * dx + off.2 * dy = 0).
Proof.
  intros off entry exit Hd H1 H2 Hlen Hb.
  destruct (segment_length_pos _ _ _ Hlen) as [Hpos Ha].
  split; [by apply segment_scan_line_detour|].
  split; [by apply root1_le_root2|].
  split; [by apply detour2_norm | by apply detour2_perpendicular].
Qed.

(** *** The meridian leg past [degree_obstacle] *)

(** [field] on equations with decimal literals. *)
Ltac dfield :=
  unfold Q2R; cbn [QArith_base.Qnum QArith_base.Qden]; field.

Ltac equator_quadratic :=
  unfold quad_disc, quad_a, quad_b, quad_c, effective_radius;
  rewrite ?local_segment_equator; cbn [fst snd radius safe_distance].

Lemma long_enough p1 p2 obstacle :
  0.001 * 0.001 < quad_a p1 p2 obstacle →
  ¬ segment_length p1 p2 obstacle < 0.001.
Proof.
  intros Ha. unfold segment_length.
  pose proof (sqrt_gt_of_sq (quad_a p1 p2 obstacle) 0.001) as H. lra.
Qed.

(** A leg along the meridian [lo], from latitude [la1] up to [la2]. *)
Lemma meridian_quadratic (la1 la2 lo : R) :
  let p1 := (la1, lo) in
  let p2 := (la2, lo) in
  quad_a p1 p2 degree_obstacle = (la2 - la1) * (la2 - la1) * (deg_m * deg_m) ∧
  quad_b p1 p2 degree_obstacle = 2 * (la2 - la1) * la1 * (deg_m * deg_m) ∧
  quad_c p1 p2 degree_obstacle = (lo * lo + la1 * la1 - 1) * (deg_m * deg_m).
Proof.
  cbv zeta. unfold degree_obstacle. repeat split; equator_quadratic; ring.
Qed.

Lemma meridian_crosses (la1 la2 lo : R) :
  let p1 := (la1, lo) in
  let p2 := (la2, lo) in
  la1 <= 0 → 1 <= la2 → lo * lo <= 1 →
  1 <= lo * lo + la1 * la1 → 1 <= lo * lo + la2 * la2 →
  0 <= quad_disc p1 p2 degree_obstacle ∧
  on_segment (root1 p1 p2 degree_obstacle) ∧
  on_segment (root2 p1 p2 degree_obstacle) ∧
  ¬ segment_length p1 p2 degree_obstacle < 0.001.
Proof.
  intros p1 p2 H1 H2 Hlo Hc1 Hc2.
  destruct (meridian_quadratic la1 la2 lo) as (Ha & Hb & Hc).
  fold p1 p2 in Ha, Hb, Hc. pose proof deg_m_gt as Hk.
  assert (Hkk : 1 < deg_m * deg_m) by nra.
  set (kk := deg_m * deg_m) in *.
  assert (Hl : 1 <= (la2 - la1) * (la2 - la1)) by nra.
  assert (Hd : 0 <= quad_disc p1 p2 degree_obstacle).
  { unfold quad_disc. rewrite Ha, Hb, Hc.
    replace (2 * (la2 - la1) * la1 * kk * (2 * (la2 - la1) * la1 * kk)
             - 4 * ((la2 - la1) * (la2 - la1) * kk)
               * ((lo * lo + la1 * la1 - 1) * kk))
      with (4 * ((la2 - la1) * (la2 - la1)) * (kk * kk) * (1 - lo * lo)) by ring.
    assert (0 <= kk * kk) by nra.
    apply Rmult_le_pos; [|lra]. apply Rmult_le_pos; lra. }
  assert (Hr : on_segment (root1 p1 p2 degree_obstacle) ∧
               on_segment (root2 p1 p2 degree_obstacle)).
  { apply roots_on_segment; rewrite ?Ha, ?Hb, ?Hc; [nra | done | nra | | ].
    - replace ((la2 - la1) * (la2 - la1) * kk + 2 * (la2 - la1) * la1 * kk
               + (lo * lo + la1 * la1 - 1) * kk)
        with ((lo * lo + la2 * la2 - 1) * kk) by ring.
      apply Rmult_le_pos; lra.
    - split.
      + replace (- (2 * ((la2 - la1) * (la2 - la1) * kk)))
          with (2 * (la2 - la1) * (la1 - la2) * kk) by ring.
        apply Rmult_le_compat_r; [lra|]. nra.
      + replace (2 * (la2 - la1) * la1 * kk)
          with (- (2 * (la2 - la1) * (- la1) * kk)) by ring.
        assert (0 <= 2 * (la2 - la1) * (- la1) * kk); [|lra].
        apply Rmult_le_pos; [|lra]. apply Rmult_le_pos; lra. }
  split; [exact Hd|]. split; [apply Hr|]. split; [apply Hr|].
  apply long_enough. rewrite Ha. nra.
Qed.

Lemma meridian_leg_crosses :
  let p1 := (-4, -0.6) in
  let p2 := (4, -0.6) in
  0 <= quad_disc p1 p2 degree_obstacle ∧
  on_segment (root1 p1 p2 degree_obstacle) ∧
  on_segment (root2 p1 p2 degree_obstacle) ∧
  ¬ segment_length p1 p2 degree_obstacle < 0.001.
Proof. apply meridian_crosses; lra. Qed.

Lemma C3_detour_between_endpoints_witness :
  let p1 := (-4, -0.6) in
  let p2 := (4, -0.6) in
  let off := detour2 p1 p2 degree_obstacle in
  (0 <= quad_disc p1 p2 degree_obstacle ∧
   on_segment (root1 p1 p2 degree_obstacle) ∧
   on_segment (root2 p1 p2 degree_obstacle) ∧
   ¬ segment_length p1 p2 degree_obstacle < 0.001) ∧
  _segment_scan_line p1 p2 [degree_obstacle] None
  = Ok [p1; bypass_point p1 p2 degree_obstacle 0.25 off;
        bypass_point p1 p2 degree_obstacle 0.75 off; p2].
Proof.
  intros p1 p2 off. split; [exact meridian_leg_crosses|].
  destruct meridian_leg_crosses as (Hd & H1 & H2 & Hlen).
  exact (proj1 (C3_detour_between_endpoints p1 p2 degree_obstacle [] None
                  Hd H1 H2 Hlen (or_introl eq_refl))).
Defined.

(** *** A chord shorter than a millimetre *)

Lemma chord_quadratic :
  quad_a chord_p1 chord_p2 pin_obstacle = 0.00000064 ∧
  quad_b chord_p1 chord_p2 pin_obstacle = - 0.00000064 ∧
  quad_c chord_p1 chord_p2 pin_obstacle = 0.00000012.
Proof.
  pose proof deg_m_pos.
  unfold pin_obstacle, chord_p1, chord_p2.
  repeat split; equator_quadratic; dfield; lra.
Qed.

Lemma chord_local :
  to_meters 0 0 chord_p1.1 chord_p1.2 = (- 0.0004, 0.99999999) ∧
  to_meters 0 0 chord_p2.1 chord_p2.2 = (0.0004, 0.99999999).
Proof.
  pose proof deg_m_pos. unfold chord_p1, chord_p2. cbn [fst snd].
  rewrite !to_meters_equator. split; f_equal; dfield; lra.
Qed.

Lemma chord_collides :
  line_intersects_circle chord_p1 chord_p2 (center pin_obstacle)
                         (effective_radius pin_obstacle) = true.
Proof.
  destruct chord_local as [H1 H2].
  rewrite (line_intersects_circle_symmetric chord_p1 chord_p2 (0, 0) _ _ _ _ _
             H1 H2) by lra.
  apply bool_decide_eq_true. unfold effective_radius, pin_obstacle.
  cbn [radius safe_distance]. lra.
Qed.

(** C3 (as stated) fails for a segment shorter than a millimetre: the
    obstacle collides, both roots (0.25 and 0.75) lie on the segment and no
    boundary is supplied, yet the planner returns the two endpoints and no
    bypass point, because [_generate_tangent_detour] gives up when
    [length < 0.001]. *)
Lemma C3_short_segment_keeps_endpoints :
  check_segment_collision (mkManager [pin_obstacle] 1) chord_p1 chord_p2
    = [pin_obstacle] ∧
  0 <= quad_disc chord_p1 chord_p2 pin_obstacle ∧
  on_segment (root1 chord_p1 chord_p2 pin_obstacle) ∧
  on_segment (root2 chord_p1 chord_p2 pin_obstacle) ∧
  root1 chord_p1 chord_p2 pin_obstacle <= root2 chord_p1 chord_p2 pin_obstacle ∧
  _segment_scan_line chord_p1 chord_p2 [pin_obstacle] None
    = Ok [chord_p1; chord_p2] ∧
  ¬ ∃ entry exit,
      _segment_scan_line chord_p1 chord_p2 [pin_obstacle] None
      = Ok [chord_p1; entry; exit; chord_p2].
Proof.
  destruct chord_quadratic as (Ha & Hb & Hc).
  assert (Hd : 0 <= quad_disc chord_p1 chord_p2 pin_obstacle).
  { unfold quad_disc. rewrite Ha, Hb, Hc. lra. }
  assert (Hr : on_segment (root1 chord_p1 chord_p2 pin_obstacle) ∧
               on_segment (root2 chord_p1 chord_p2 pin_obstacle)).
  { apply roots_on_segment; rewrite ?Ha, ?Hb, ?Hc; (done || lra). }
  assert (Hshort : segment_length chord_p1 chord_p2 pin_obstacle < 0.001).
  { unfold segment_length. rewrite Ha.
    pose proof (sqrt_le_of_sq 0.00000064 0.0008). lra. }
  assert (Hres : _segment_scan_line chord_p1 chord_p2 [pin_obstacle] None
                 = Ok [chord_p1; chord_p2])
    by (by apply segment_scan_line_short).
  split.
  { unfold check_segment_collision. cbn [obstacles filter list_filter].
    by rewrite decide_True by exact chord_collides. }
  split; [exact Hd|]. split; [apply Hr|]. split; [apply Hr|].
  split; [apply root1_le_root2; rewrite Ha; lra|].
  split; [exact Hres|].
  intros (entry & exit & Heq). rewrite Hres in Heq. discriminate.
Qed.

(** ** Path assembler on a colliding segment *)

Lemma add_unprocessed_in waypoints st idx :
  idx ∈ st.2 → add_unprocessed waypoints st idx = st.
Proof. intros Hin. unfold add_unprocessed. rewrite decide_False; [done|]. tauto. Qed.

Lemma add_unprocessed_notin waypoints st idx :
  idx ∉ st.2 →
  add_unprocessed waypoints st idx = (st.1 ++ [waypoints !!! idx], {[idx]} ∪ st.2).
Proof. intros Hni. unfold add_unprocessed. by rewrite decide_True. Qed.

Lemma sweep_processed waypoints st (l : list nat) :
  Forall (λ idx, idx ∈ st.2) l → foldl (add_unprocessed waypoints) st l = st.
Proof.
  induction 1 as [|idx l Hidx _ IH]; cbn; [done|].
  by rewrite add_unprocessed_in.
Qed.

Lemma append_new_nodup (acc l : list Point) :
  NoDup (acc ++ l) → foldl append_new acc l = acc ++ l.
Proof.
  revert acc. induction l as [|wp l IH]; intros acc Hnd; cbn.
  - by rewrite app_nil_r.
  - replace (acc ++ wp :: l) with ((acc ++ [wp]) ++ l) in *
      by (by rewrite <- app_assoc).
    unfold append_new at 2. rewrite decide_False.
    + by apply IH.
    + apply NoDup_app in Hnd as (Hnd & _ & _).
      apply NoDup_app in Hnd as (_ & Hdis & _).
      intros Hin. apply (Hdis _ Hin). by left.
Qed.

Lemma append_new_seen (acc l : list Point) wp :
  wp ∈ acc → foldl append_new acc (wp :: l) = foldl append_new acc l.
Proof. intros Hin. cbn. unfold append_new at 2. by rewrite decide_True. Qed.

(** Membership of an index in a set of marked indices given by numerals. *)
Ltac solve_marked :=
  cbn [fst snd];
  lazymatch goal with
  | |- _ ∉ _ =>
    repeat (apply not_elem_of_union; split);
    first [ apply not_elem_of_empty | apply not_elem_of_singleton; lia ]
  | |- _ ∈ _ =>
    repeat first [ apply elem_of_union_l, elem_of_singleton_2; reflexivity
                 | apply elem_of_union_r ]
  end.

(** Distinctness of points given by numerals. *)
Ltac solve_nodup :=
  repeat (apply NoDup_cons; split;
          [rewrite ?not_elem_of_cons; repeat split;
           try apply not_elem_of_nil; intros [=]; lra |]);
  apply NoDup_nil; exact I.

Lemma identify_single_segment (a b : Point) :
  0 < calculate_distance a b →
  _identify_scan_segments [a; b] = [(scan, (0, 1))%nat].
Proof.
  intros Hd.
  rewrite (identify_scan_segments_eq [a; b] [calculate_distance a b]);
    [| cbn; lia | solve_sorted | done].
  cbn. rewrite decide_True; [done|].
  change ([calculate_distance a b] !!! 0%nat) with (calculate_distance a b). lra.
Qed.

(** One colliding scan segment: the result is what the scan-line
    segmentation returns, when that has no repeated point. *)
Lemma route_single_colliding_segment m (a b : Point) boundary o os seg :
  0 < calculate_distance a b →
  check_segment_collision m a b = o :: os →
  _segment_scan_line a b (o :: os) boundary = Ok seg →
  NoDup seg →
  filter_waypoints_with_detour m [a; b] boundary = Ok seg.
Proof.
  intros Hd Hcol Hseg Hnd. unfold filter_waypoints_with_detour.
  destruct (obstacles m) as [|o' os'] eqn:Hobs.
  { unfold check_segment_collision in Hcol. by rewrite Hobs in Hcol. }
  rewrite (identify_single_segment a b Hd).
  cbn [for_each route_step]. 
  change ([a; b] !!! 0%nat) with a. change ([a; b] !!! 1%nat) with b.
  rewrite Hcol, Hseg. cbn [mbind result_bind fst snd].
  rewrite (append_new_nodup [] seg) by done. cbn [app length seq].
  rewrite sweep_processed; [done|].
  cbn [snd]. repeat constructor; solve_marked.
Qed.

Lemma calculate_distance_meridian (la1 la2 lo : R) :
  la1 <= la2 → calculate_distance (la1, lo) (la2, lo) = (la2 - la1) * deg_m.
Proof.
  intros Hle. unfold calculate_distance, radians, deg_m.
  set (c := cos _).
  replace ((lo - lo) * (PI / 180) * c * ((lo - lo) * (PI / 180) * c)
           + (la2 - la1) * (PI / 180) * ((la2 - la1) * (PI / 180)))
    with (((la2 - la1) * (PI / 180)) * ((la2 - la1) * (PI / 180))) by ring.
  rewrite sqrt_square; [ring|]. pose proof PI_RGT_0. nra.
Qed.

(** *** The end-to-end example *)

Lemma deg_m_lt : deg_m < 2470.
Proof. unfold deg_m, earth_radius_m. pose proof PI_4. lra. Qed.

Lemma example_local :
  to_meters 0 0.005 example_p1.1 example_p1.2 = (- 0.005 * deg_m, 0) ∧
  to_meters 0 0.005 example_p2.1 example_p2.2 = (0.005 * deg_m, 0).
Proof.
  unfold example_p1, example_p2. cbn [fst snd].
  rewrite !to_meters_equator. split; f_equal; lra.
Qed.

Lemma example_collides :
  line_intersects_circle example_p1 example_p2 (center example_obstacle)
                         (effective_radius example_obstacle) = true.
Proof.
  destruct example_local as [H1 H2]. pose proof deg_m_pos as Hk.
  rewrite (line_intersects_circle_symmetric example_p1 example_p2 (0, 0.005)
             _ _ _ _ _ H1 H2); [| lra | nra].
  apply bool_decide_eq_true. unfold effective_radius, example_obstacle.
  cbn [add_obstacle snd radius safe_distance]. nra.
Qed.

Lemma example_quadratic :
  quad_a example_p1 example_p2 example_obstacle = 0.0001 * (deg_m * deg_m) ∧
  quad_c example_p1 example_p2 example_obstacle
    = 0.000025 * (deg_m * deg_m) - 51 * 51.
Proof.
  unfold example_obstacle, example_p1, example_p2.
  cbn [add_obstacle snd new_manager next_oid].
  split; equator_quadratic; lra.
Qed.

Lemma one_root_is_not_two p1 p2 obstacle :
  root1 p1 p2 obstacle < 0 →
  (length (filter on_segment [root1 p1 p2 obstacle; root2 p1 p2 obstacle]) < 2)%nat.
Proof.
  intros Hneg. cbn [filter list_filter].
  rewrite (decide_False (P := on_segment (root1 p1 p2 obstacle)))
    by (unfold on_segment; lra).
  cbn [filter list_filter]. case_decide; cbn; lia.
Qed.

(** C2 (what the code does on the example): the segment collides with the
    obstacle, but in the local plane, where a degree measures
    [(pi / 180) * 111111] metres, it is only [0.01 * deg_m] (about 19.4 m)
    long and lies inside the 51 m circle; the first root of the quadratic is
    negative, the planner falls back, and the route is the two endpoints,
    not four points. *)
Theorem C2_example_returns_the_two_endpoints :
  line_intersects_circle example_p1 example_p2 (center example_obstacle)
                         (effective_radius example_obstacle) = true ∧
  segment_length example_p1 example_p2 example_obstacle = 0.01 * deg_m ∧
  0.01 * deg_m < effective_radius example_obstacle ∧
  root1 example_p1 example_p2 example_obstacle < 0 ∧
  _segment_scan_line example_p1 example_p2 [example_obstacle] None
    = Ok [example_p1; example_p2] ∧
  filter_waypoints_with_detour example_registry [example_p1; example_p2] None
    = Ok [example_p1; example_p2].
Proof.
  destruct example_quadratic as [Ha Hc].
  pose proof deg_m_pos as Hk. pose proof deg_m_lt as Hk'.
  assert (Hroot : root1 example_p1 example_p2 example_obstacle < 0).
  { apply root1_negative; rewrite ?Ha, ?Hc; nra. }
  assert (Hseg : _segment_scan_line example_p1 example_p2 [example_obstacle] None
                 = Ok [example_p1; example_p2]).
  { by apply segment_scan_line_few_roots, one_root_is_not_two. }
  split; [exact example_collides|]. split.
  { unfold segment_length. rewrite Ha.
    replace (0.0001 * (deg_m * deg_m)) with ((0.01 * deg_m) * (0.01 * deg_m)) by lra.
    apply sqrt_square. lra. }
  split.
  { unfold effective_radius, example_obstacle.
    cbn [add_obstacle snd radius safe_distance]. lra. }
  split; [exact Hroot|]. split; [exact Hseg|].
  apply (route_single_colliding_segment _ _ _ _ example_obstacle []).
  - unfold example_p1, example_p2. rewrite calculate_distance_equator; lra.
  - unfold check_segment_collision, example_registry.
    cbn [add_obstacle fst obstacles new_manager app filter list_filter].
    by rewrite decide_True by exact example_collides.
  - exact Hseg.
  - unfold example_p1, example_p2. solve_nodup.
Qed.

(** *** Meridian legs past [degree_obstacle] *)

Lemma meridian_length (la1 la2 lo : R) :
  la1 <= la2 →
  segment_length (la1, lo) (la2, lo) degree_obstacle = (la2 - la1) * deg_m.
Proof.
  intros Hle. unfold segment_length.
  destruct (meridian_quadratic la1 la2 lo) as (-> & _ & _).
  replace ((la2 - la1) * (la2 - la1) * (deg_m * deg_m))
    with (((la2 - la1) * deg_m) * ((la2 - la1) * deg_m)) by ring.
  apply sqrt_square. pose proof deg_m_pos. nra.
Qed.

Lemma meridian_detour (la1 la2 lo t : R) :
  la1 < la2 →
  bypass_point (la1, lo) (la2, lo) degree_obstacle t
               (detour2 (la1, lo) (la2, lo) degree_obstacle)
  = (la1 + t * (la2 - la1), lo + 1.2).
Proof.
  intros Hlt. pose proof deg_m_pos as Hk.
  unfold bypass_point, detour2, perp, detour_radius.
  rewrite meridian_length by lra.
  unfold degree_obstacle, effective_radius. rewrite !local_segment_equator.
  cbn [center fst snd radius safe_distance].
  rewrite to_latlon_equator. f_equal; dfield; lra.
Qed.

Lemma meridian_collides (la lo : R) :
  0 < la → lo * lo < 1 →
  line_intersects_circle (- la, lo) (la, lo) (center degree_obstacle)
                         (effective_radius degree_obstacle) = true.
Proof.
  intros Hla Hlo. pose proof deg_m_pos as Hk.
  rewrite (line_intersects_circle_symmetric (- la, lo) (la, lo) (0, 0) _
             (lo * deg_m) (- la * deg_m) (lo * deg_m) (la * deg_m)).
  - apply bool_decide_eq_true. unfold effective_radius, degree_obstacle.
    cbn [radius safe_distance].
    assert (Hkk : 0 < deg_m * deg_m) by nra.
    replace ((lo * deg_m + lo * deg_m) / 2 * ((lo * deg_m + lo * deg_m) / 2)
             + (- la * deg_m + la * deg_m) / 2 * ((- la * deg_m + la * deg_m) / 2))
      with (lo * lo * (deg_m * deg_m)) by field.
    nra.
  - cbn [fst snd]. rewrite to_meters_equator. f_equal; ring.
  - cbn [fst snd]. rewrite to_meters_equator. f_equal; ring.
  - ring.
  - assert (Hp : 0 < la * deg_m) by nra.
    replace ((lo * deg_m - lo * deg_m) * (lo * deg_m - lo * deg_m)
             + (la * deg_m - - la * deg_m) * (la * deg_m - - la * deg_m))
      with (4 * ((la * deg_m) * (la * deg_m))) by ring.
    nra.
Qed.

Lemma meridian_scan_line (la lo : R) others :
  1 <= la → lo * lo < 1 → 1 <= lo * lo + la * la →
  _segment_scan_line (- la, lo) (la, lo) (degree_obstacle :: others) None
  = Ok [(- la, lo); (- la / 2, lo + 1.2); (la / 2, lo + 1.2); (la, lo)].
Proof.
  intros Hla Hlo Hout.
  destruct (meridian_crosses (- la) la lo) as (Hd & H1 & H2 & Hlen);
    [lra | lra | lra | nra | nra |].
  rewrite segment_scan_line_detour by (done || by left).
  rewrite !meridian_detour by lra.
  repeat f_equal; lra.
Qed.

Lemma degree_registry_collision (la lo : R) :
  0 < la → lo * lo < 1 →
  check_segment_collision degree_registry (- la, lo) (la, lo) = [degree_obstacle].
Proof.
  intros Hla Hlo. unfold check_segment_collision, degree_registry.
  cbn [obstacles filter list_filter].
  by rewrite decide_True by (by apply meridian_collides).
Qed.

Lemma degree_registry_far_by_lat (p1 p2 : Point) :
  (2 <= p1.1 ∧ 2 <= p2.1) ∨ (p1.1 <= - 2 ∧ p2.1 <= - 2) →
  check_segment_collision degree_registry p1 p2 = [].
Proof.
  intros Hside. unfold check_segment_collision, degree_registry.
  cbn [obstacles filter list_filter].
  rewrite decide_False; [done|]. apply not_true_iff_false.
  pose proof deg_m_pos. apply (far_by_lat _ _ _ 2); [lra | | exact Hside].
  unfold effective_radius, degree_obstacle. cbn [radius safe_distance]. nra.
Qed.

Lemma first_pass :
  filter_waypoints_with_detour degree_registry meridian_leg None = Ok routed_once.
Proof.
  pose proof deg_m_pos as Hk. unfold meridian_leg, routed_once.
  apply (route_single_colliding_segment _ _ _ _ degree_obstacle []).
  - rewrite calculate_distance_meridian; lra.
  - apply (degree_registry_collision 4 (-0.6)); lra.
  - etrans; [apply (meridian_scan_line 4 (-0.6) []); lra|].
    repeat f_equal; lra.
  - solve_nodup.
Qed.

(** *** A second pass over a routed path *)

Lemma route_step_noncolliding m w b st label i j :
  check_segment_collision m (w !!! i) (w !!! j) = [] →
  route_step m w b st (label, (i, j))
  = Ok (add_unprocessed w (add_unprocessed w st i) j).
Proof. intros H. unfold route_step. destruct label; [by rewrite H | done]. Qed.

Lemma route_step_colliding m w b st i j o os seg :
  check_segment_collision m (w !!! i) (w !!! j) = o :: os →
  _segment_scan_line (w !!! i) (w !!! j) (o :: os) b = Ok seg →
  route_step m w b st (scan, (i, j))
  = Ok (foldl append_new st.1 seg, {[j]} ∪ ({[i]} ∪ st.2)).
Proof. intros Hc Hs. unfold route_step. by rewrite Hc, Hs. Qed.

Lemma sorted_lookup_bound (ds : list R) (M : R) (i : nat) :
  Forall (λ d, d <= M) ds → (i < length ds)%nat → sorted ds !!! i <= M.
Proof.
  intros Hall Hi. unfold sorted.
  assert (Hs : Forall (λ d, d <= M) (merge_sort Rle ds)).
  { by rewrite merge_sort_Permutation. }
  rewrite Forall_forall in Hs. apply Hs.
  apply list_elem_of_lookup_total_2. by rewrite merge_sort_Permutation.
Qed.

(** The planar distance never exceeds the one measured on the degree
    grid. *)
Lemma calculate_distance_bound (p q : Point) (D : R) :
  0 <= D →
  (q.2 - p.2) * (q.2 - p.2) + (q.1 - p.1) * (q.1 - p.1) <= D * D →
  calculate_distance p q <= D * deg_m.
Proof.
  destruct p as [lat1 lon1], q as [lat2 lon2]. cbn [fst snd]. intros HD Hle.
  unfold calculate_distance, radians, deg_m, earth_radius_m.
  set (c := cos _). pose proof (COS_bound ((lat1 + lat2) / 2 * (PI / 180))) as Hc.
  fold c in Hc. pose proof PI_RGT_0 as Hpi.
  assert (Hcc : c * c <= 1) by nra.
  replace (D * (PI / 180 * 111111)) with (D * (PI / 180) * 111111) by ring.
  apply Rmult_le_compat_r; [lra|].
  apply sqrt_le_of_sq; [nra|].
  replace ((lon2 - lon1) * (PI / 180) * c * ((lon2 - lon1) * (PI / 180) * c)
           + (lat2 - lat1) * (PI / 180) * ((lat2 - lat1) * (PI / 180)))
    with ((PI / 180) * (PI / 180)
          * ((lon2 - lon1) * (lon2 - lon1) * (c * c)
             + (lat2 - lat1) * (lat2 - lat1))) by ring.
  replace (D * (PI / 180) * (D * (PI / 180)))
    with ((PI / 180) * (PI / 180) * (D * D)) by ring.
  apply Rmult_le_compat_l; [nra|].
  pose proof (Rle_0_sqr (lon2 - lon1)) as Hsq. unfold Rsqr in Hsq.
  assert ((lon2 - lon1) * (lon2 - lon1) * (c * c)
          <= (lon2 - lon1) * (lon2 - lon1) * 1)
    by (apply Rmult_le_compat_l; lra).
  lra.
Qed.

Lemma second_pass_segments :
  ∃ label : nat → seg_type,
    label 1%nat = scan ∧
    _identify_scan_segments routed_once
    = [(label 0%nat, (0, 1)); (label 1%nat, (1, 2)); (label 2%nat, (2, 3))]%nat.
Proof.
  pose proof deg_m_pos as Hk.
  set (dist := λ i, calculate_distance (routed_once !!! i) (routed_once !!! S i)).
  set (s := sorted (dist <$> seq 0 3)).
  assert (Hs : Sorted Rle s) by (apply Sorted_merge_sort; tc_solve).
  assert (Hp : s ≡ₚ dist <$> seq 0 3) by apply merge_sort_Permutation.
  assert (Hm : s !!! 1%nat <= 4 * deg_m).
  { apply sorted_lookup_bound; [|cbn; lia].
    cbn [fmap list_fmap seq]. repeat apply Forall_cons_2; [..|apply Forall_nil_2];
      unfold dist, routed_once; apply calculate_distance_bound; cbn; lra. }
  assert (Hd1 : dist 1%nat = 4 * deg_m).
  { unfold dist, routed_once.
    change ([(-4, -0.6); (-2, 0.6); (2, 0.6); (4, -0.6)] !!! 1%nat) with (-2, 0.6).
    change ([(-4, -0.6); (-2, 0.6); (2, 0.6); (4, -0.6)] !!! 2%nat) with (2, 0.6).
    rewrite calculate_distance_meridian; lra. }
  exists (λ i, if decide (dist i > 0.6 * (s !!! 1%nat)) then scan else turn).
  split.
  - rewrite decide_True; [done|]. rewrite Hd1. lra.
  - rewrite (identify_scan_segments_eq routed_once s); [done | cbn; lia | done | done].
Qed.

Lemma second_pass :
  filter_waypoints_with_detour degree_registry routed_once None = Ok routed_twice.
Proof.
  destruct second_pass_segments as (label & Hl1 & Hsegs).
  unfold filter_waypoints_with_detour.
  change (obstacles degree_registry) with [degree_obstacle].
  unfold routed_once at 1. cbv iota. rewrite Hsegs, Hl1.
  cbn [for_each].
  (* segment 0 -> 1 stays west and south of the obstacle *)
  rewrite route_step_noncolliding
    by (apply degree_registry_far_by_lat; right; cbn; lra).
  rewrite (add_unprocessed_notin _ _ 0) by solve_marked.
  rewrite (add_unprocessed_notin _ _ 1) by solve_marked.
  cbn [mbind result_bind fst snd app].
  (* segment 1 -> 2 runs along the detour and crosses the circle again *)
  rewrite (route_step_colliding _ _ _ _ _ _ degree_obstacle []
             [(-2, 0.6); (-1, 1.8); (1, 1.8); (2, 0.6)]).
  2: { apply (degree_registry_collision 2 0.6); lra. }
  2: { etrans; [apply (meridian_scan_line 2 0.6 []); lra|]. repeat f_equal; lra. }
  cbn [mbind result_bind fst snd].
  change (routed_once !!! 0%nat) with (-4, -0.6).
  change (routed_once !!! 1%nat) with (-2, 0.6).
  rewrite append_new_seen by (apply elem_of_cons; right; apply elem_of_cons; by left).
  rewrite append_new_nodup by solve_nodup.
  (* segment 2 -> 3 stays north of the obstacle *)
  rewrite route_step_noncolliding
    by (apply degree_registry_far_by_lat; left; cbn; lra).
  rewrite (add_unprocessed_in _ _ 2) by solve_marked.
  rewrite (add_unprocessed_notin _ _ 3) by solve_marked.
  cbn [mbind result_bind fst snd app].
  rewrite sweep_processed; [done|].
  cbn [snd length seq]. repeat constructor; solve_marked.
Qed.

(** C6 (as stated) fails: routing [meridian_leg] past [degree_obstacle]
    inserts a detour on the fixed side, towards the obstacle's centre; the
    detour leg crosses the circle again, so a second pass inserts two more
    points and returns six waypoints where the first pass returned four. *)
Lemma C6_second_pass_differs :
  filter_waypoints_with_detour degree_registry meridian_leg None
    = Ok routed_once ∧
  filter_waypoints_with_detour degree_registry routed_once None
    = Ok routed_twice ∧
  (filter_waypoints_with_detour degree_registry meridian_leg None
     ≫= λ routed, filter_waypoints_with_detour degree_registry routed None)
    ≠ filter_waypoints_with_detour degree_registry meridian_leg None.
Proof.
  split; [exact first_pass|]. split; [exact second_pass|].
  rewrite first_pass. cbn [mbind result_bind]. rewrite second_pass.
  intros Heq. apply (f_equal (λ r, match r with
                                   | Ok l => length l
                                   | Raise _ => 0%nat
                                   end)) in Heq.
  cbn in Heq. lia.
Qed.

(** C6 (as the code behaves): a second pass returns the output of the
    first one whenever no adjacent pair of that output collides with a
    registered obstacle. *)
Theorem C6_route_idempotent_once_collision_free (m : ObstacleManager)
    (waypoints : list Point) (boundary_corners : option (list Point)) :
  (∀ routed, filter_waypoints_with_detour m waypoints boundary_corners = Ok routed →
             collision_free m routed) →
  (filter_waypoints_with_detour m waypoints boundary_corners
     ≫= λ routed, filter_waypoints_with_detour m routed boundary_corners)
  = filter_waypoints_with_detour m waypoints boundary_corners.
Proof.
  intros Hfree.
  destruct (filter_waypoints_with_detour m waypoints boundary_corners)
    as [routed|e] eqn:Hroute; cbn [mbind result_bind]; [|done].
  apply route_collision_free. by apply Hfree.
Qed.

Lemma C6_route_idempotent_once_collision_free_witness :
  (∀ routed, filter_waypoints_with_detour origin_registry far_path None = Ok routed →
             collision_free origin_registry routed) ∧
  (filter_waypoints_with_detour origin_registry far_path None
     ≫= λ routed, filter_waypoints_with_detour origin_registry routed None)
  = filter_waypoints_with_detour origin_registry far_path None.
Proof.
  assert (Hfree : ∀ routed,
    filter_waypoints_with_detour origin_registry far_path None = Ok routed →
    collision_free origin_registry routed).
  { intros routed Hr.
    rewrite (route_collision_free _ _ None far_path_collision_free) in Hr.
    injection Hr as <-. exact far_path_collision_free. }
  split; [exact Hfree|].
  exact (C6_route_idempotent_once_collision_free origin_registry far_path None Hfree).
Defined.

(** * Further properties of the geometry kernel *)

(** The two projections are inverse to each other wherever the cosine of
    the centre latitude does not vanish. *)
Theorem projection_round_trip (cx cy : R) (lat lon x y : R) :
  cos (radians cx) ≠ 0 →
  to_latlon cx cy (to_meters cx cy lat lon).1 (to_meters cx cy lat lon).2
    = (lat, lon) ∧
  to_meters cx cy (to_latlon cx cy x y).1 (to_latlon cx cy x y).2 = (x, y).
Proof.
  intros Hcos. pose proof PI_RGT_0 as Hpi.
  unfold to_latlon, to_meters, earth_radius_m. cbn [fst snd].
  split; f_equal; field; repeat split; lra.
Qed.

Lemma projection_round_trip_witness :
  cos (radians 0) ≠ 0 ∧
  to_latlon 0 0.005 (to_meters 0 0.005 0 0.01).1 (to_meters 0 0.005 0 0.01).2
    = (0, 0.01).
Proof.
  assert (H : cos (radians 0) ≠ 0).
  { unfold radians. replace (0 * (PI / 180)) with 0 by lra. rewrite cos_0. lra. }
  split; [exact H|].
  exact (proj1 (projection_round_trip 0 0.005 0 0.01 0 0 H)).
Defined.

(** The planar distance is symmetric, never negative, and zero from a
    point to itself. *)
Theorem calculate_distance_metric (p q : Point) :
  calculate_distance p q = calculate_distance q p ∧
  0 <= calculate_distance p q ∧
  calculate_distance p p = 0.
Proof.
  destruct p as [lat1 lon1], q as [lat2 lon2].
  unfold calculate_distance, radians, earth_radius_m. repeat split.
  - replace ((lat2 + lat1) / 2) with ((lat1 + lat2) / 2) by lra.
    f_equal. f_equal. ring.
  - apply Rmult_le_pos; [apply sqrt_pos | lra].
  - replace ((lon1 - lon1) * (PI / 180) * cos ((lat1 + lat1) / 2 * (PI / 180))
             * ((lon1 - lon1) * (PI / 180) * cos ((lat1 + lat1) / 2 * (PI / 180)))
             + (lat1 - lat1) * (PI / 180) * ((lat1 - lat1) * (PI / 180)))
      with 0 by ring.
    rewrite sqrt_0. ring.
Qed.

(** * Further properties of the collision detector *)

Lemma clamp_mirror (t : R) : Rmax 0 (Rmin 1 (1 - t)) = 1 - Rmax 0 (Rmin 1 t).
Proof. unfold Rmax, Rmin. repeat destruct (Rle_dec _ _); lra. Qed.

Lemma sum_sq_zero (a b : R) : a * a + b * b = 0 → a = 0 ∧ b = 0.
Proof. intros H. split; nra. Qed.

Lemma line_intersects_circle_swap (p1 p2 c : Point) (r : R) :
  line_intersects_circle p1 p2 c r = line_intersects_circle p2 p1 c r.
Proof.
  unfold line_intersects_circle.
  destruct p1 as [lat1 lon1], p2 as [lat2 lon2], c as [cx cy].
  destruct (to_meters cx cy lat1 lon1) as [x1 y1].
  destruct (to_meters cx cy lat2 lon2) as [x2 y2].
  destruct (decide ((x2 - x1) * (x2 - x1) + (y2 - y1) * (y2 - y1) = 0)) as [Hd|Hd].
  - rewrite decide_True by (rewrite <- Hd; ring).
    apply sum_sq_zero in Hd as [Hx Hy].
    replace x2 with x1 by lra. by replace y2 with y1 by lra.
  - rewrite decide_False by (intros H; apply Hd; rewrite <- H; ring).
    set (dr2 := (x2 - x1) * (x2 - x1) + (y2 - y1) * (y2 - y1)) in *.
    replace ((x1 - x2) * (x1 - x2) + (y1 - y2) * (y1 - y2)) with dr2
      by (unfold dr2; ring).
    replace (- (x2 * (x1 - x2) + y2 * (y1 - y2)) / dr2)
      with (1 - - (x1 * (x2 - x1) + y1 * (y2 - y1)) / dr2)
      by (unfold dr2 in *; field; exact Hd).
    rewrite clamp_mirror.
    set (t := Rmax 0 (Rmin 1 _)).
    apply bool_decide_ext.
    replace (x2 + (1 - t) * (x1 - x2)) with (x1 + t * (x2 - x1)) by ring.
    by replace (y2 + (1 - t) * (y1 - y2)) with (y1 + t * (y2 - y1)) by ring.
Qed.

(** Whether a segment collides, and with which obstacles, does not depend
    on the direction in which it is flown. *)
Theorem collision_is_direction_independent (m : ObstacleManager)
    (p1 p2 c : Point) (r : R) :
  line_intersects_circle p1 p2 c r = line_intersects_circle p2 p1 c r ∧
  check_segment_collision m p1 p2 = check_segment_collision m p2 p1.
Proof.
  split; [apply line_intersects_circle_swap|].
  unfold check_segment_collision.
  induction (obstacles m) as [|o l IH]; [done|].
  rewrite !filter_cons, IH, (line_intersects_circle_swap p1 p2). done.
Qed.

(** The clamped parameter minimises the squared distance to the centre
    over the segment. *)
Lemma clamp_minimises (x1 y1 dx dy s : R) :
  dx * dx + dy * dy ≠ 0 → 0 <= s <= 1 →
  let t := Rmax 0 (Rmin 1 (- (x1 * dx + y1 * dy) / (dx * dx + dy * dy))) in
  (x1 + t * dx) * (x1 + t * dx) + (y1 + t * dy) * (y1 + t * dy)
  <= (x1 + s * dx) * (x1 + s * dx) + (y1 + s * dy) * (y1 + s * dy).
Proof.
  intros Hnd Hs. set (dr2 := dx * dx + dy * dy) in *.
  set (u := - (x1 * dx + y1 * dy) / dr2). intros t.
  assert (Hpos : 0 < dr2) by (unfold dr2 in *; nra).
  assert (Hu : x1 * dx + y1 * dy = - u * dr2) by (unfold u; field; lra).
  assert (Hf : ∀ v, (x1 + v * dx) * (x1 + v * dx) + (y1 + v * dy) * (y1 + v * dy)
                    = x1 * x1 + y1 * y1 - dr2 * (u * u) + dr2 * ((v - u) * (v - u))).
  { intros v.
    transitivity (x1 * x1 + y1 * y1 + 2 * v * (x1 * dx + y1 * dy) + v * v * dr2);
      [unfold dr2; ring|].
    rewrite Hu. ring. }
  rewrite (Hf t), (Hf s).
  assert (Hc : (t - u) * (t - u) <= (s - u) * (s - u)).
  { assert (Ht : (u <= 0 ∧ t = 0) ∨ (1 <= u ∧ t = 1) ∨ (0 <= u <= 1 ∧ t = u)).
    { unfold t, Rmax, Rmin. repeat destruct (Rle_dec _ _); lra. }
    destruct Ht as [[H0 ->] | [[H1 ->] | [_ ->]]].
    - replace ((s - u) * (s - u)) with ((0 - u) * (0 - u) + s * (s - 2 * u)) by ring.
      assert (0 <= s * (s - 2 * u)) by (apply Rmult_le_pos; lra). lra.
    - replace ((s - u) * (s - u))
        with ((1 - u) * (1 - u) + (1 - s) * (2 * u - s - 1)) by ring.
      assert (0 <= (1 - s) * (2 * u - s - 1)) by (apply Rmult_le_pos; lra). lra.
    - replace ((u - u) * (u - u)) with 0 by ring. apply Rle_0_sqr. }
  apply Rplus_le_compat_l. apply Rmult_le_compat_l; lra.
Qed.

(** For a segment of positive length the test answers whether some point
    of the segment lies strictly inside the circle. *)
Theorem line_intersects_circle_correct (p1 p2 c : Point) (r : R) :
  ¬ degenerate p1 p2 c →
  line_intersects_circle p1 p2 c r = true ↔
  ∃ s, 0 <= s <= 1 ∧
       (segment_point p1 p2 c s).1 * (segment_point p1 p2 c s).1
       + (segment_point p1 p2 c s).2 * (segment_point p1 p2 c s).2 < r * r.
Proof.
  unfold degenerate, line_intersects_circle, segment_point.
  destruct p1 as [lat1 lon1], p2 as [lat2 lon2], c as [cx cy]. cbn [fst snd].
  destruct (to_meters cx cy lat1 lon1) as [x1 y1].
  destruct (to_meters cx cy lat2 lon2) as [x2 y2].
  intros Hnd. rewrite decide_False by exact Hnd. rewrite bool_decide_eq_true.
  split.
  - intros Hlt. exists (Rmax 0 (Rmin 1 (- (x1 * (x2 - x1) + y1 * (y2 - y1))
                          / ((x2 - x1) * (x2 - x1) + (y2 - y1) * (y2 - y1))))).
    split; [apply clamp_bounds | exact Hlt].
  - intros (s & Hs & Hlt). cbn [fst snd] in Hlt.
    eapply Rle_lt_trans; [|exact Hlt].
    apply (clamp_minimises x1 y1 (x2 - x1) (y2 - y1) s Hnd Hs).
Qed.

Lemma line_intersects_circle_correct_witness :
  ¬ degenerate (0, 0) (1, 0) (0, 0) ∧
  (line_intersects_circle (0, 0) (1, 0) (0, 0) 1 = true ↔
   ∃ s, 0 <= s <= 1 ∧
        (segment_point (0, 0) (1, 0) (0, 0) s).1
          * (segment_point (0, 0) (1, 0) (0, 0) s).1
        + (segment_point (0, 0) (1, 0) (0, 0) s).2
          * (segment_point (0, 0) (1, 0) (0, 0) s).2 < 1 * 1).
Proof.
  assert (H : ¬ degenerate (0, 0) (1, 0) (0, 0)).
  { unfold degenerate. cbn [fst snd]. rewrite !to_meters_origin.
    pose proof deg_m_pos. nra. }
  split; [exact H|].
  exact (line_intersects_circle_correct (0, 0) (1, 0) (0, 0) 1 H).
Defined.

(** Enlarging the radius never removes a collision. *)
Theorem collision_monotone_in_radius (p1 p2 c : Point) (r r' : R) :
  0 <= r → r <= r' →
  line_intersects_circle p1 p2 c r = true →
  line_intersects_circle p1 p2 c r' = true.
Proof.
  intros Hr Hrr. assert (Hsq : r * r <= r' * r') by nra.
  unfold line_intersects_circle.
  destruct p1 as [lat1 lon1], p2 as [lat2 lon2], c as [cx cy].
  destruct (to_meters cx cy lat1 lon1) as [x1 y1].
  destruct (to_meters cx cy lat2 lon2) as [x2 y2].
  case_decide; rewrite !bool_decide_eq_true; lra.
Qed.

Lemma collision_monotone_in_radius_witness :
  0 <= 1 ∧ 1 <= 51 ∧
  line_intersects_circle (0, 0) (0, 0) (0, 0) 1 = true ∧
  line_intersects_circle (0, 0) (0, 0) (0, 0) 51 = true.
Proof.
  assert (H : line_intersects_circle (0, 0) (0, 0) (0, 0) 1 = true).
  { unfold line_intersects_circle. rewrite !to_meters_origin.
    rewrite decide_True by ring. apply bool_decide_eq_true. lra. }
  split; [lra|]. split; [lra|]. split; [exact H|].
  apply (collision_monotone_in_radius (0, 0) (0, 0) (0, 0) 1 51); [lra | lra | exact H].
Defined.

(** * Further properties of the detour planner *)

Lemma root_equation p1 p2 obstacle (t : R) :
  quad_a p1 p2 obstacle ≠ 0 → 0 <= quad_disc p1 p2 obstacle →
  t = root1 p1 p2 obstacle ∨ t = root2 p1 p2 obstacle →
  quad_a p1 p2 obstacle * (t * t) + quad_b p1 p2 obstacle * t
  + quad_c p1 p2 obstacle = 0.
Proof.
  intros Ha Hd Ht. pose proof (sqrt_sqrt _ Hd) as Hs.
  unfold root1, root2 in Ht.
  set (sd := sqrt (quad_disc p1 p2 obstacle)) in *. unfold quad_disc in Hs.
  set (a := quad_a p1 p2 obstacle) in *. set (b := quad_b p1 p2 obstacle) in *.
  set (c := quad_c p1 p2 obstacle) in *.
  apply (Rmult_eq_reg_l (4 * a)); [|lra].
  destruct Ht as [-> | ->].
  - transitivity (sd * sd - (b * b - 4 * a * c)); [field; exact Ha | lra].
  - transitivity (sd * sd - (b * b - 4 * a * c)); [field; exact Ha | lra].
Qed.

Lemma segment_point_norm p1 p2 obstacle (t : R) :
  sq_norm (segment_point p1 p2 (center obstacle) t)
  - effective_radius obstacle * effective_radius obstacle
  = quad_a p1 p2 obstacle * (t * t) + quad_b p1 p2 obstacle * t
    + quad_c p1 p2 obstacle.
Proof.
  unfold sq_norm, segment_point, quad_a, quad_b, quad_c, local_segment.
  destruct (center obstacle) as [cx cy]. cbn [fst snd].
  destruct (to_meters cx cy p1.1 p1.2) as [x1 y1].
  destruct (to_meters cx cy p2.1 p2.2) as [x2 y2]. cbn [fst snd]. ring.
Qed.

(** At most two intersection points are returned; each is the geographic
    image of a point of the segment that lies on the circle of the
    effective radius. *)
Theorem intersection_points_on_circle (p1 p2 : Point) (obstacle : Obstacle) :
  let ips := _calculate_line_circle_intersection p1 p2 obstacle in
  (length ips ≤ 2)%nat ∧
  Forall (λ p, ∃ t, on_segment t ∧
                    p = to_latlon (center obstacle).1 (center obstacle).2
                          (segment_point p1 p2 (center obstacle) t).1
                          (segment_point p1 p2 (center obstacle) t).2 ∧
                    sq_norm (segment_point p1 p2 (center obstacle) t)
                    = effective_radius obstacle * effective_radius obstacle) ips.
Proof.
  cbv zeta. rewrite calculate_intersection_eq. case_decide as Hc.
  { split; [cbn; lia | constructor]. }
  assert (Ha : quad_a p1 p2 obstacle ≠ 0) by tauto.
  assert (Hd : 0 <= quad_disc p1 p2 obstacle) by (apply Rnot_lt_le; tauto).
  split.
  - rewrite length_fmap. etrans; [apply length_filter|]. done.
  - apply Forall_fmap, Forall_forall. intros t Ht.
    apply list_elem_of_filter in Ht as [Hseg Hin]. exists t.
    split; [exact Hseg|]. split.
    + unfold bypass_point, segment_point, local_segment.
      destruct (center obstacle) as [cx cy]. cbn [fst snd].
      destruct (to_meters cx cy p1.1 p1.2) as [x1 y1].
      destruct (to_meters cx cy p2.1 p2.2) as [x2 y2]. cbn [fst snd].
      f_equal; ring.
    + pose proof (segment_point_norm p1 p2 obstacle t) as Hn.
      rewrite (root_equation p1 p2 obstacle t Ha Hd) in Hn; [lra|].
      apply elem_of_cons in Hin as [->|Hin]; [by left|].
      apply elem_of_cons in Hin as [->|Hin]; [by right|].
      by apply elem_of_nil in Hin.
Qed.

Lemma valid_detour_points_sublist boundary_corners dps : ∀ valid,
  valid_detour_points boundary_corners dps = Ok valid → valid `sublist_of` dps.
Proof.
  induction dps as [|dp dps IH]; intros valid; cbn.
  - intros [= <-]. constructor.
  - destruct (match boundary_corners with
              | Some polygon => point_in_polygon dp polygon
              | None => Ok true
              end) as [keep|e]; cbn; [|done].
    destruct (valid_detour_points boundary_corners dps) as [v|e]; cbn; [|done].
    intros [= <-]. destruct keep.
    + apply sublist_skip. by apply IH.
    + apply sublist_cons. by apply IH.
Qed.

Lemma segment_scan_line_parts (p1 p2 : Point) (obstacle : Obstacle)
    (others : list Obstacle) (boundary_corners : option (list Point))
    (l : list Point) :
  _segment_scan_line p1 p2 (obstacle :: others) boundary_corners = Ok l →
  ∃ mid, l = p1 :: mid ++ [p2] ∧
         mid `sublist_of`
           [bypass_point_u p1 p2 obstacle 0.25 (detour2 p1 p2 obstacle);
            bypass_point_u p1 p2 obstacle 0.75 (detour2 p1 p2 obstacle)].
Proof.
  unfold _segment_scan_line. case_decide.
  { intros [= <-]. exists []. split; [done|]. do 2 apply sublist_cons. constructor. }
  rewrite generate_tangent_detour_eq.
  destruct (valid_detour_points boundary_corners _) as [valid|e] eqn:Hv;
    cbn [mbind result_bind]; [|done].
  apply valid_detour_points_sublist in Hv.
  destruct valid as [|v valid]; intros [= <-].
  - exists []. split; [done|]. do 2 apply sublist_cons. constructor.
  - exists (v :: valid). split; [done|].
    case_decide; [|exact Hv]. by apply sublist_nil_r in Hv.
Qed.

(** Whatever the scan-line segmentation returns starts with [p1], ends
    with [p2] and has in between only bypass points, in their order: none,
    one or both of the points at 0.25 and 0.75; so it has two to four
    points. *)
Theorem segment_scan_line_shape (p1 p2 : Point) (obstacle : Obstacle)
    (others : list Obstacle) (boundary_corners : option (list Point))
    (l : list Point) :
  _segment_scan_line p1 p2 (obstacle :: others) boundary_corners = Ok l →
  (2 ≤ length l ≤ 4)%nat ∧
  ∃ mid, l = p1 :: mid ++ [p2] ∧
         mid `sublist_of`
           [bypass_point_u p1 p2 obstacle 0.25 (detour2 p1 p2 obstacle);
            bypass_point_u p1 p2 obstacle 0.75 (detour2 p1 p2 obstacle)].
Proof.
  intros Hl. destruct (segment_scan_line_parts _ _ _ _ _ _ Hl) as (mid & -> & Hmid).
  split; [|by exists mid].
  apply sublist_length in Hmid. cbn in Hmid |- *.
  rewrite length_app. cbn. lia.
Qed.

Lemma segment_scan_line_shape_witness :
  let l := [(- 4, -0.6); (- 4 / 2, -0.6 + 1.2); (4 / 2, -0.6 + 1.2); (4, -0.6)] in
  _segment_scan_line (- 4, -0.6) (4, -0.6) [degree_obstacle] None = Ok l ∧
  ∃ mid, l = (- 4, -0.6) :: mid ++ [(4, -0.6)].
Proof.
  intros l.
  assert (H : _segment_scan_line (- 4, -0.6) (4, -0.6) [degree_obstacle] None = Ok l).
  { apply (meridian_scan_line 4 (-0.6) []); lra. }
  split; [exact H|].
  destruct (segment_scan_line_shape _ _ _ _ _ _ H) as (_ & mid & Hl & _).
  by exists mid.
Defined.

(** When the obstacle's centre is on the line or to the left of the
    direction of travel, the detour, which always turns right, keeps the
    whole detour leg at least 1.2 times the effective radius away from the
    centre; the two bypass points are the geographic images of its points at
    0.25 and 0.75. *)
Theorem detour_keeps_clearance (p1 p2 : Point) (obstacle : Obstacle)
    (inter1 inter2 : Point) :
  ¬ segment_length p1 p2 obstacle < 0.001 →
  0 <= effective_radius obstacle →
  centre_on_left p1 p2 obstacle →
  _generate_tangent_detour p1 p2 obstacle inter1 inter2
  = [to_latlon (center obstacle).1 (center obstacle).2
       (bypass_local p1 p2 obstacle 0.25).1 (bypass_local p1 p2 obstacle 0.25).2;
     to_latlon (center obstacle).1 (center obstacle).2
       (bypass_local p1 p2 obstacle 0.75).1 (bypass_local p1 p2 obstacle 0.75).2] ∧
  ∀ t, (1.2 * effective_radius obstacle) ^ 2
       <= sq_norm (bypass_local p1 p2 obstacle t).
Proof.
  intros Hlen Hr Hleft.
  destruct (segment_length_pos _ _ _ Hlen) as [Hpos Ha]. split.
  - rewrite generate_tangent_detour_eq, decide_False by done.
    rewrite !bypass_point_u_eq by done.
    unfold bypass_point, bypass_local.
    by destruct (local_segment p1 p2 obstacle) as [[[x1 y1] dx] dy].
  - intros t. unfold sq_norm, bypass_local, detour2, perp, detour_radius.
    assert (Hsq : segment_length p1 p2 obstacle * segment_length p1 p2 obstacle
                  = quad_a p1 p2 obstacle).
    { unfold segment_length. apply sqrt_sqrt, quad_a_nonneg. }
    revert Hleft Hpos Hsq. unfold centre_on_left, quad_a.
    set (len := segment_length p1 p2 obstacle).
    destruct (local_segment p1 p2 obstacle) as [[[x1 y1] dx] dy].
    intros Hleft Hpos Hsq. cbn [fst snd].
    set (r' := effective_radius obstacle * 1.2).
    set (ux := dx / len). set (uy := dy / len).
    assert (Hu : ux * ux + uy * uy = 1).
    { unfold ux, uy.
      transitivity ((dx * dx + dy * dy) / (len * len)); [field; lra|].
      rewrite <- Hsq. field. lra. }
    assert (Hdx : dx = ux * len) by (unfold ux; field; lra).
    assert (Hdy : dy = uy * len) by (unfold uy; field; lra).
    set (bx := x1 + t * dx + - - uy * r'). set (by' := y1 + t * dy + - ux * r').
    (* component of the bypass point along the right normal *)
    set (nb := bx * uy - by' * ux).
    assert (Hnb : nb = (x1 * uy - y1 * ux) + r').
    { unfold nb, bx, by'. rewrite Hdx, Hdy.
      transitivity (x1 * uy - y1 * ux + r' * (ux * ux + uy * uy)); [ring|].
      rewrite Hu. ring. }
    assert (Hcross : 0 <= x1 * uy - y1 * ux).
    { assert (H : (x1 * uy - y1 * ux) * len = x1 * dy - y1 * dx)
        by (rewrite Hdx, Hdy; ring).
      nra. }
    assert (Hr' : 0 <= r') by (unfold r'; lra).
    assert (Hdecomp : bx * bx + by' * by'
                      = nb * nb + (bx * ux + by' * uy) * (bx * ux + by' * uy)).
    { unfold nb.
      transitivity ((bx * bx + by' * by') * (ux * ux + uy * uy)); [rewrite Hu; ring | ring]. }
    replace ((1.2 * effective_radius obstacle) ^ 2) with (r' * r')
      by (unfold r'; ring).
    replace (bx ^ 2 + by' ^ 2) with (bx * bx + by' * by') by ring.
    rewrite Hdecomp, Hnb.
    pose proof (Rle_0_sqr (bx * ux + by' * uy)) as Hsq2. unfold Rsqr in Hsq2.
    nra.
Qed.

Lemma detour_keeps_clearance_witness :
  let p1 := (-4, 0.6) in
  let p2 := (4, 0.6) in
  (¬ segment_length p1 p2 degree_obstacle < 0.001 ∧
   0 <= effective_radius degree_obstacle ∧
   centre_on_left p1 p2 degree_obstacle) ∧
  ∀ t, (1.2 * effective_radius degree_obstacle) ^ 2
       <= sq_norm (bypass_local p1 p2 degree_obstacle t).
Proof.
  intros p1 p2. pose proof deg_m_pos as Hk.
  assert (Hlen : ¬ segment_length p1 p2 degree_obstacle < 0.001).
  { unfold p1, p2. rewrite meridian_length by lra. pose proof deg_m_gt. lra. }
  assert (Hr : 0 <= effective_radius degree_obstacle).
  { unfold effective_radius, degree_obstacle. cbn. lra. }
  assert (Hleft : centre_on_left p1 p2 degree_obstacle).
  { unfold centre_on_left, p1, p2, degree_obstacle.
    rewrite local_segment_equator. cbn [fst snd]. nra. }
  split; [by repeat split|].
  exact (proj2 (detour_keeps_clearance p1 p2 degree_obstacle (0, 0) (0, 0)
                  Hlen Hr Hleft)).
Defined.

(** * Further properties of the ray-casting test *)

Lemma pip_iteration_crossed lat lon st p2 :
  ∃ xi, (pip_iteration lat lon st p2).2
        = Ok (mkPip (xorb (inside st) (edge_crossed lat lon (pip_p1 st, p2))) xi p2).
Proof.
  unfold pip_iteration, edge_crossed.
  destruct (pip_p1 st) as [p1_lat p1_lon], p2 as [p2_lat p2_lon].
  destruct (decide (lon > Rmin p1_lon p2_lon)) as [Hmin|Hmin].
  2: { rewrite bool_decide_eq_false_2 by tauto. rewrite xorb_false_r.
       by eexists. }
  destruct (decide (lon <= Rmax p1_lon p2_lon)) as [Hmax|Hmax].
  2: { rewrite bool_decide_eq_false_2 by tauto. rewrite xorb_false_r.
       by eexists. }
  destruct (decide (lat <= Rmax p1_lat p2_lat)) as [Hlat|Hlat].
  2: { rewrite bool_decide_eq_false_2 by tauto. rewrite xorb_false_r.
       by eexists. }
  assert (Hne : p1_lon ≠ p2_lon).
  { intros ->. unfold Rmin, Rmax in *. destruct (Rle_dec p2_lon p2_lon); lra. }
  rewrite (bool_decide_eq_true_2 _ Hne).
  destruct (decide (p1_lat = p2_lat)) as [Heq|Hneq].
  { rewrite bool_decide_eq_true_2 by tauto. rewrite xorb_true_r. by eexists. }
  cbn [snd]. destruct (decide (lat <= _)) as [Hx|Hx].
  - rewrite bool_decide_eq_true_2 by tauto. rewrite xorb_true_r. by eexists.
  - rewrite bool_decide_eq_false_2 by tauto. rewrite xorb_false_r. by eexists.
Qed.

Lemma pip_loop_parity lat lon p2s : ∀ st,
  (pip_loop lat lon st p2s).2
  = Ok (foldl (λ inside edge, xorb inside (edge_crossed lat lon edge))
              (inside st) (zip (pip_p1 st :: p2s) p2s)).
Proof.
  induction p2s as [|p2 rest IH]; intros st; [done|].
  cbn [pip_loop].
  destruct (pip_iteration_crossed lat lon st p2) as [xi Hit].
  destruct (pip_iteration lat lon st p2) as [acc [st'|e]]; cbn [snd] in Hit;
    [|done].
  injection Hit as ->. specialize (IH (mkPip (xorb (inside st)
                                     (edge_crossed lat lon (pip_p1 st, p2))) xi p2)).
  destruct (pip_loop lat lon _ rest) as [tr out]. cbn [snd] in IH |- *.
  rewrite IH. reflexivity.
Qed.

Lemma lookup_total_seq (l : list Point) :
  (λ i, l !!! i) <$> seq 0 (length l) = l.
Proof.
  apply list_eq. intros i. rewrite list_lookup_fmap.
  destruct (decide (i < length l)%nat) as [Hlt|Hge].
  - rewrite lookup_seq_lt by done. cbn.
    by rewrite (list_lookup_lookup_total_lt l i Hlt).
  - rewrite lookup_seq_ge by lia. cbn. symmetry. apply lookup_ge_None. lia.
Qed.

Lemma polygon_edge_ends_cons v polygon :
  polygon_edge_ends (v :: polygon) = polygon ++ [v].
Proof.
  unfold polygon_edge_ends. cbn [length].
  rewrite seq_S, fmap_app. cbn [fmap list_fmap].
  rewrite Nat.Div0.mod_same. f_equal.
  rewrite <- (lookup_total_seq polygon) at 2.
  rewrite <- (fmap_S_seq 0), <- list_fmap_compose.
  apply list_fmap_ext. intros j i Hi. apply lookup_seq in Hi as [Hi Hj].
  unfold compose. rewrite Nat.mod_small by lia. done.
Qed.

Lemma zip_longer_left (l k extra : list Point) :
  (length k ≤ length l)%nat → zip (l ++ extra) k = zip l k.
Proof.
  revert k. induction l as [|a l IH]; intros [|b k] Hlen; cbn in *;
    try done; try lia.
  - by destruct extra.
  - f_equal. apply IH. lia.
Qed.

Lemma point_in_polygon_parity (lat lon : R) (v : Point) (polygon : list Point) :
  point_in_polygon (lat, lon) (v :: polygon)
  = Ok (crossing_parity lat lon (polygon_edges (v :: polygon))).
Proof.
  unfold point_in_polygon, point_in_polygon_trace, crossing_parity, polygon_edges.
  rewrite pip_loop_parity. cbn [inside pip_p1].
  rewrite polygon_edge_ends_cons.
  change (v :: polygon ++ [v]) with ((v :: polygon) ++ [v]).
  rewrite zip_longer_left; [done|]. rewrite length_app. cbn. lia.
Qed.

(** The stateful loop computes the parity of the crossed edges: on a
    polygon with at least one vertex the result is that parity, so a
    carried-over [xinters] never influences the answer; on a polygon
    without a vertex [polygon[0]] raises. *)
Theorem point_in_polygon_is_crossing_parity (point : Point)
    (polygon : list Point) :
  point_in_polygon point polygon
  = match polygon with
    | [] => Raise IndexError
    | _ :: _ => Ok (crossing_parity point.1 point.2 (polygon_edges polygon))
    end.
Proof.
  destruct point as [lat lon], polygon as [|v polygon].
  - reflexivity.
  - apply point_in_polygon_parity.
Qed.

Lemma edge_crossed_meridian lat lon la1 la2 lo :
  edge_crossed lat lon ((la1, lo), (la2, lo)) = false.
Proof.
  unfold edge_crossed. apply bool_decide_eq_false. intros (Hmin & Hmax & _).
  unfold Rmin, Rmax in *. destruct (Rle_dec lo lo); lra.
Qed.

Lemma edge_crossed_parallel lat lon la lo1 lo2 :
  edge_crossed lat lon ((la, lo1), (la, lo2))
  = bool_decide (Rmin lo1 lo2 < lon ∧ lon <= Rmax lo1 lo2 ∧ lat <= la).
Proof.
  unfold edge_crossed. apply bool_decide_ext.
  assert (Hm : Rmax la la = la) by (unfold Rmax; destruct (Rle_dec la la); lra).
  rewrite Hm. split.
  - intros (H1 & H2 & H3 & _). repeat split; lra.
  - intros (H1 & H2 & H3). repeat split; lra.
Qed.

(** An axis-parallel rectangle contains exactly the points of the
    half-open box: its upper and right sides belong to it, its lower and
    left sides do not. *)
Theorem point_in_rectangle (lat0 lon0 lat1 lon1 lat lon : R) :
  point_in_polygon (lat, lon) (rectangle lat0 lon0 lat1 lon1)
  = Ok (bool_decide (Rmin lon0 lon1 < lon ∧ lon <= Rmax lon0 lon1 ∧
                     Rmin lat0 lat1 < lat ∧ lat <= Rmax lat0 lat1)).
Proof.
  unfold rectangle. rewrite point_in_polygon_parity.
  unfold crossing_parity, polygon_edges. rewrite polygon_edge_ends_cons.
  cbn [app zip zip_with foldl]. f_equal.
  rewrite !edge_crossed_meridian, !edge_crossed_parallel.
  rewrite !xorb_false_r, xorb_false_l.
  rewrite (Rmin_comm lon1 lon0), (Rmax_comm lon1 lon0).
  generalize (Rmin lon0 lon1) (Rmax lon0 lon1). intros a b.
  unfold Rmin, Rmax.
  destruct (Rlt_le_dec a lon), (Rle_lt_dec lon b), (Rle_dec lat0 lat1);
    destruct (Rle_lt_dec lat lat0), (Rle_lt_dec lat lat1); try lra;
    repeat
      (match goal with
       | |- context [bool_decide ?P] =>
         first [ rewrite (bool_decide_eq_true_2 P) by (repeat split; lra)
               | rewrite (bool_decide_eq_false_2 P)
                   by (intros ?; destruct_and!; lra) ]
       end);
    reflexivity.
Qed.

Lemma crossing_parity_none lat lon edges :
  Forall (λ edge, edge_crossed lat lon edge = false) edges →
  crossing_parity lat lon edges = false.
Proof.
  intros Hnone. unfold crossing_parity.
  assert (H : ∀ inside,
             foldl (λ inside edge, xorb inside (edge_crossed lat lon edge))
                   inside edges = inside); [|apply H].
  induction Hnone as [|edge edges He _ IH]; intros inside; cbn [foldl]; [done|].
  by rewrite He, xorb_false_r.
Qed.

Lemma polygon_edges_in v polygon a b :
  (a, b) ∈ polygon_edges (v :: polygon) →
  a ∈ v :: polygon ∧ b ∈ v :: polygon.
Proof.
  unfold polygon_edges. rewrite polygon_edge_ends_cons. intros Hin. split.
  - by apply elem_of_zip_l in Hin.
  - apply elem_of_zip_r in Hin. cbn [snd] in Hin.
    apply elem_of_app in Hin as [Hin|Hin].
    + by right.
    + apply list_elem_of_singleton in Hin as ->. by left.
Qed.

(** A point west of, east of, or north of all the vertices (latitude
    being "north") is outside: the test answers false when the query
    longitude is at most every vertex longitude, or greater than every
    vertex longitude, or the query latitude is greater than every vertex
    latitude. *)
Theorem point_outside_bounding_box (lat lon : R) (v : Point)
    (polygon : list Point) :
  Forall (λ q : Point, lon <= q.2) (v :: polygon) ∨
  Forall (λ q : Point, q.2 < lon) (v :: polygon) ∨
  Forall (λ q : Point, q.1 < lat) (v :: polygon) →
  point_in_polygon (lat, lon) (v :: polygon) = Ok false.
Proof.
  intros Hout. rewrite point_in_polygon_parity. f_equal.
  apply crossing_parity_none, Forall_forall. intros [[la1 lo1] [la2 lo2]] Hin.
  apply polygon_edges_in in Hin as [H1 H2].
  unfold edge_crossed. apply bool_decide_eq_false. intros (Hmin & Hmax & Hlat & _).
  rewrite !Forall_forall in Hout.
  destruct Hout as [H | [H | H]];
    pose proof (H _ H1) as Ha; pose proof (H _ H2) as Hb; cbn [fst snd] in Ha, Hb;
    unfold Rmin, Rmax in *; repeat destruct (Rle_dec _ _); lra.
Qed.

Lemma point_outside_bounding_box_witness :
  Forall (λ q : Point, -1 <= q.2) [(0, 0); (0, 2); (3, 1)] ∧
  point_in_polygon (1, -1) [(0, 0); (0, 2); (3, 1)] = Ok false.
Proof.
  assert (H : Forall (λ q : Point, -1 <= q.2) [(0, 0); (0, 2); (3, 1)]).
  { repeat apply Forall_cons_2; [..|apply Forall_nil_2]; cbn; lra. }
  split; [exact H|].
  apply (point_outside_bounding_box 1 (-1) (0, 0) [(0, 2); (3, 1)]).
  left. exact H.
Defined.

(** * Further properties of the path assembler *)

Lemma for_each_invariant {S A : Type} (body : S → A → result S)
    (P : S → Prop) (Q : A → Prop) :
  (∀ s a s', P s → Q a → body s a = Ok s' → P s') →
  ∀ l s s', P s → Forall Q l → for_each body s l = Ok s' → P s'.
Proof.
  intros Hstep. induction l as [|a l IH]; intros s s' Hs Hl; cbn.
  - by intros [= <-].
  - apply Forall_cons in Hl as [Ha Hl].
    destruct (body s a) as [s1|e] eqn:Hb; cbn; [|done].
    apply IH; [|done]. by apply (Hstep s a).
Qed.

Lemma foldl_append_new_spec (seg acc : list Point) :
  acc `prefix_of` foldl append_new acc seg ∧
  (∀ p, p ∈ foldl append_new acc seg ↔ p ∈ acc ∨ p ∈ seg).
Proof.
  revert acc. induction seg as [|wp seg IH]; intros acc; cbn [foldl].
  - split; [done|]. intros p. rewrite elem_of_nil. tauto.
  - destruct (IH (append_new acc wp)) as [Hpre Hin]. split.
    + etrans; [|exact Hpre]. unfold append_new. case_decide; [done|].
      by apply prefix_app_r.
    + intros p. rewrite Hin, elem_of_cons. unfold append_new.
      case_decide as Hwp.
      * split; [tauto|]. intros [?|[->|?]]; tauto.
      * rewrite elem_of_app, list_elem_of_singleton. tauto.
Qed.

Lemma add_unprocessed_assembled m waypoints st idx :
  (idx < length waypoints)%nat → assembled m waypoints st →
  assembled m waypoints (add_unprocessed waypoints st idx) ∧
  idx ∈ (add_unprocessed waypoints st idx).2 ∧
  st.1 `prefix_of` (add_unprocessed waypoints st idx).1 ∧
  (∀ i, i ∈ st.2 → i ∈ (add_unprocessed waypoints st idx).2).
Proof.
  intros Hidx [Hcov Hsound]. unfold add_unprocessed, assembled.
  case_decide as Hni; cbn [fst snd].
  - split; [split|].
    + intros i Hi. apply elem_of_app.
      apply elem_of_union in Hi as [Hi|Hi].
      * apply elem_of_singleton in Hi as ->. right. by left.
      * left. by apply Hcov.
    + intros p Hp. apply elem_of_app in Hp as [Hp|Hp]; [by apply Hsound|].
      apply list_elem_of_singleton in Hp as ->. left.
      by apply list_elem_of_lookup_total_2.
    + split; [apply elem_of_union_l, elem_of_singleton_2; done|].
      split; [by apply prefix_app_r|].
      intros i Hi. by apply elem_of_union_r.
  - split; [by split|]. split; [|by split].
    destruct (decide (idx ∈ st.2)); tauto.
Qed.

Lemma check_segment_collision_registered m p1 p2 o os :
  check_segment_collision m p1 p2 = o :: os → o ∈ obstacles m.
Proof.
  unfold check_segment_collision. intros Heq.
  assert (Hin : o ∈ filter (λ obstacle,
                   line_intersects_circle p1 p2 (center obstacle)
                     (effective_radius obstacle) = true) (obstacles m))
    by (rewrite Heq; by left).
  by apply list_elem_of_filter in Hin as [_ Hin].
Qed.

(** One step of the loop on a segment [(i, i + 1)] of the path. *)
Lemma route_step_assembled m waypoints boundary st label i st' :
  (S i < length waypoints)%nat → assembled m waypoints st →
  route_step m waypoints boundary st (label, (i, S i)) = Ok st' →
  assembled m waypoints st' ∧ st.1 `prefix_of` st'.1 ∧
  (∀ j, j ∈ st.2 → j ∈ st'.2) ∧
  (st.1 = [] → head st'.1 = Some (waypoints !!! i)).
Proof.
  intros Hi Hst Hstep.
  assert (Hadd : ∀ st0, assembled m waypoints st0 →
    let st1 := add_unprocessed waypoints (add_unprocessed waypoints st0 i) (S i) in
    assembled m waypoints st1 ∧ st0.1 `prefix_of` st1.1 ∧
    (∀ j, j ∈ st0.2 → j ∈ st1.2) ∧
    (st0.1 = [] → head st1.1 = Some (waypoints !!! i))).
  { intros st0 Hst0.
    destruct (add_unprocessed_assembled m waypoints st0 i) as (Ha & Hin & Hp & Hm);
      [lia | done |].
    destruct (add_unprocessed_assembled m waypoints
                (add_unprocessed waypoints st0 i) (S i)) as (Hb & _ & Hq & Hn);
      [lia | done |].
    cbv zeta. split; [done|]. split; [by etrans|]. split; [by auto|].
    intros Hnil. destruct Hst0 as [Hcov0 _].
    assert (Hni : i ∉ st0.2).
    { intros Hin0. apply Hcov0 in Hin0. rewrite Hnil in Hin0.
      by apply elem_of_nil in Hin0. }
    rewrite (add_unprocessed_notin _ st0 i Hni) in Hq |- *.
    destruct Hq as [k Hk]. rewrite Hk. cbn [fst]. by rewrite Hnil. }
  unfold route_step in Hstep. destruct label.
  - destruct (check_segment_collision m (waypoints !!! i) (waypoints !!! S i))
      as [|o os] eqn:Hcol.
    + injection Hstep as <-. by apply Hadd.
    + destruct (_segment_scan_line _ _ (o :: os) boundary) as [seg|e] eqn:Hseg;
        cbn [mbind result_bind] in Hstep; [|done].
      injection Hstep as <-.
      apply segment_scan_line_parts in Hseg as (mid & -> & Hmid).
      destruct (foldl_append_new_spec
                  (waypoints !!! i :: mid ++ [waypoints !!! S i]) st.1)
        as [Hpre Hin].
      destruct Hst as [Hcov Hsound]. unfold assembled. cbn [fst snd].
      split; [split|split; [done|split]].
      * intros j Hj. apply Hin.
        apply elem_of_union in Hj as [Hj|Hj].
        { apply elem_of_singleton in Hj as ->. right. right.
          apply elem_of_app. right. by left. }
        apply elem_of_union in Hj as [Hj|Hj].
        { apply elem_of_singleton in Hj as ->. right. by left. }
        left. by apply Hcov.
      * intros p Hp. apply Hin in Hp as [Hp|Hp]; [by apply Hsound|].
        apply elem_of_cons in Hp as [->|Hp].
        { left. apply list_elem_of_lookup_total_2. lia. }
        apply elem_of_app in Hp as [Hp|Hp].
        2: { apply list_elem_of_singleton in Hp as ->. left.
             by apply list_elem_of_lookup_total_2. }
        right. eapply elem_of_sublist in Hp; [|exact Hmid].
        apply check_segment_collision_registered in Hcol.
        apply elem_of_cons in Hp as [->|Hp].
        { exists i, o, 0.25. repeat split; (done || by left). }
        apply list_elem_of_singleton in Hp as ->.
        exists i, o, 0.75. repeat split; (done || by right).
      * intros j Hj. by do 2 apply elem_of_union_r.
      * intros Hnil. rewrite Hnil. cbn [foldl]. unfold append_new at 2.
        rewrite decide_False by apply not_elem_of_nil.
        destruct (foldl_append_new_spec (mid ++ [waypoints !!! S i])
                    ([] ++ [waypoints !!! i])) as [[k ->] _]. done.
  - injection Hstep as <-. cbn [foldl]. by apply Hadd.
Qed.

Lemma prefix_head (l k : list Point) (x : Point) :
  head l = Some x → l `prefix_of` k → head k = Some x.
Proof. intros Hl [ext ->]. by destruct l. Qed.

Lemma route_loop_assembled m waypoints boundary label : ∀ len k st st',
  (k + len = length waypoints - 1)%nat → assembled m waypoints st →
  for_each (route_step m waypoints boundary) st
    ((λ i, (label i, (i, S i))) <$> seq k len) = Ok st' →
  assembled m waypoints st' ∧ st.1 `prefix_of` st'.1 ∧
  (st.1 = [] → len ≠ 0%nat → head st'.1 = Some (waypoints !!! k)).
Proof.
  induction len as [|len IH]; intros k st st' Hlen Hst; cbn [seq fmap list_fmap for_each].
  - intros [= <-]. split; [done|]. split; done.
  - destruct (route_step m waypoints boundary st (label k, (k, S k)))
      as [st1|e] eqn:Hstep; cbn [mbind result_bind]; [|done].
    intros Hrun.
    destruct (route_step_assembled m waypoints boundary st (label k) k st1)
      as (Hst1 & Hpre1 & _ & Hhead1); [lia | done | done |].
    destruct (IH (S k) st1 st') as (Hst' & Hpre' & _); [lia | done | done |].
    split; [done|]. split; [by etrans|].
    intros Hnil _. apply (prefix_head st1.1); [by apply Hhead1 | exact Hpre'].
Qed.

Lemma sweep_assembled m waypoints : ∀ len a st,
  (a + len ≤ length waypoints)%nat → assembled m waypoints st →
  let st' := foldl (add_unprocessed waypoints) st (seq a len) in
  assembled m waypoints st' ∧ st.1 `prefix_of` st'.1 ∧
  (∀ j, j ∈ st.2 ∨ (a ≤ j < a + len)%nat → j ∈ st'.2) ∧
  (st.1 = [] → len ≠ 0%nat → head st'.1 = Some (waypoints !!! a)).
Proof.
  induction len as [|len IH]; intros a st Hlen Hst; cbn [seq foldl].
  - split; [done|]. split; [done|]. split; [|done].
    intros j [Hj|Hj]; [done|lia].
  - destruct (add_unprocessed_assembled m waypoints st a)
      as (Hst1 & Hin1 & Hpre1 & Hmono1); [lia | done |].
    destruct (IH (S a) (add_unprocessed waypoints st a))
      as (Hst' & Hpre' & Hmarked & _); [lia | done |].
    split; [done|]. split; [by etrans|]. split.
    + intros j [Hj|Hj]; apply Hmarked.
      * left. by apply Hmono1.
      * destruct (decide (j = a)) as [->|]; [by left | right; lia].
    + intros Hnil _. apply (prefix_head (add_unprocessed waypoints st a).1);
        [|exact Hpre'].
      destruct Hst as [Hcov _].
      rewrite add_unprocessed_notin; [cbn [fst]; by rewrite Hnil|].
      intros Hin. apply Hcov in Hin. rewrite Hnil in Hin.
      by apply elem_of_nil in Hin.
Qed.

Lemma assembled_initial m waypoints : assembled m waypoints ([], ∅).
Proof.
  split; cbn [fst snd].
  - intros i Hi. by apply elem_of_empty in Hi.
  - intros p Hp. by apply elem_of_nil in Hp.
Qed.

(** The whole run, when it returns: every index is marked, the invariant
    holds, and the output starts with the first waypoint. *)
Lemma route_assembled m waypoints boundary out :
  filter_waypoints_with_detour m waypoints boundary = Ok out →
  (∀ p, p ∈ waypoints → p ∈ out) ∧
  (∀ p, p ∈ out → p ∈ waypoints ∨ is_bypass_point m waypoints p) ∧
  head out = head waypoints.
Proof.
  unfold filter_waypoints_with_detour.
  destruct waypoints as [|w ws] eqn:Hw; [by intros [= <-]; split; auto|].
  destruct (obstacles m) as [|o os] eqn:Ho; [by intros [= <-]; split; auto|].
  rewrite <- Hw in *.
  destruct (identify_scan_segments_shape waypoints) as [label ->].
  destruct (for_each _ _ _) as [st|e] eqn:Hrun; cbn [mbind result_bind]; [|done].
  intros [= <-].
  destruct (route_loop_assembled m waypoints boundary label
              (length waypoints - 1) 0 ([], ∅) st)
    as (Hst & _ & Hhead); [lia | apply assembled_initial | done |].
  destruct (sweep_assembled m waypoints (length waypoints) 0 st)
    as ([Hcov Hsound] & Hpre & Hmarked & Hhead'); [lia | done |].
  cbv zeta in *. set (st' := foldl _ st _) in *.
  split; [|split].
  - intros p Hp. apply list_elem_of_lookup_total_1 in Hp as (i & Hi & <-).
    apply Hcov, Hmarked. right. lia.
  - exact Hsound.
  - assert (Hw0 : head waypoints = Some (waypoints !!! 0%nat)) by (by rewrite Hw).
    rewrite Hw0. assert (Hn : length waypoints ≠ 0%nat) by (rewrite Hw; done).
    destruct (decide (st.1 = [])) as [Hnil|Hne].
    + by apply Hhead'.
    + destruct (decide (length waypoints - 1 = 0)%nat) as [H1|H1].
      * rewrite H1 in Hrun. cbn in Hrun. injection Hrun as <-. done.
      * apply (prefix_head st.1); [|exact Hpre]. by apply Hhead.
Qed.

(** No waypoint is lost: every waypoint of the input occurs in the
    output. *)
Theorem route_keeps_every_waypoint (m : ObstacleManager)
    (waypoints : list Point) (boundary_corners : option (list Point))
    (out : list Point) :
  filter_waypoints_with_detour m waypoints boundary_corners = Ok out →
  ∀ p, p ∈ waypoints → p ∈ out.
Proof. intros Hout. by destruct (route_assembled _ _ _ _ Hout) as (H & _ & _). Qed.

Lemma route_keeps_every_waypoint_witness :
  filter_waypoints_with_detour degree_registry meridian_leg None = Ok routed_once ∧
  ∀ p, p ∈ meridian_leg → p ∈ routed_once.
Proof.
  split; [exact first_pass|].
  exact (route_keeps_every_waypoint degree_registry meridian_leg None routed_once
           first_pass).
Defined.

(** Nothing else is added: every point of the output is a waypoint of the
    input or one of the two bypass points of an adjacent pair around a
    registered obstacle. *)
Theorem route_adds_only_bypass_points (m : ObstacleManager)
    (waypoints : list Point) (boundary_corners : option (list Point))
    (out : list Point) :
  filter_waypoints_with_detour m waypoints boundary_corners = Ok out →
  ∀ p, p ∈ out → p ∈ waypoints ∨ is_bypass_point m waypoints p.
Proof. intros Hout. by destruct (route_assembled _ _ _ _ Hout) as (_ & H & _). Qed.

Lemma route_adds_only_bypass_points_witness :
  filter_waypoints_with_detour degree_registry meridian_leg None = Ok routed_once ∧
  ∀ p, p ∈ routed_once →
       p ∈ meridian_leg ∨ is_bypass_point degree_registry meridian_leg p.
Proof.
  split; [exact first_pass|].
  exact (route_adds_only_bypass_points degree_registry meridian_leg None
           routed_once first_pass).
Defined.

(** The route starts where the plan starts: the first point of the output
    is the first waypoint (and the output is empty only for an empty
    input). *)
Theorem route_starts_at_first_waypoint (m : ObstacleManager)
    (waypoints : list Point) (boundary_corners : option (list Point))
    (out : list Point) :
  filter_waypoints_with_detour m waypoints boundary_corners = Ok out →
  head out = head waypoints.
Proof. intros Hout. by destruct (route_assembled _ _ _ _ Hout) as (_ & _ & H). Qed.

Lemma route_starts_at_first_waypoint_witness :
  filter_waypoints_with_detour degree_registry routed_once None = Ok routed_twice ∧
  head routed_twice = head routed_once.
Proof.
  split; [exact second_pass|].
  exact (route_starts_at_first_waypoint degree_registry routed_once None
           routed_twice second_pass).
Defined.

Lemma route_step_total m waypoints boundary st seg :
  boundary = None ∨ (∃ v polygon, boundary = Some (v :: polygon)) →
  ∃ st', route_step m waypoints boundary st seg = Ok st'.
Proof.
  intros Hb. destruct seg as [label [i j]]. unfold route_step.
  destruct label; [|by eexists].
  destruct (check_segment_collision m _ _) as [|o os]; [by eexists|].
  destruct (segment_scan_line_total (waypoints !!! i) (waypoints !!! j) o os
              boundary Hb) as [l ->].
  by eexists.
Qed.

(** With no boundary, or a boundary polygon of at least one vertex, the
    path assembler returns a route for every waypoint list and every
    registry: nothing it calls raises. *)
Theorem route_never_raises (m : ObstacleManager) (waypoints : list Point)
    (boundary_corners : option (list Point)) :
  boundary_corners = None ∨
  (∃ v polygon, boundary_corners = Some (v :: polygon)) →
  ∃ out, filter_waypoints_with_detour m waypoints boundary_corners = Ok out.
Proof.
  intros Hb. unfold filter_waypoints_with_detour.
  destruct waypoints as [|w ws] eqn:Hw; [by eexists|].
  destruct (obstacles m) as [|o os]; [by eexists|].
  rewrite <- Hw. clear Hw.
  assert (Hrun : ∀ segs st, ∃ st',
    for_each (route_step m waypoints boundary_corners) st segs = Ok st').
  { induction segs as [|seg segs IH]; intros st; cbn; [by eexists|].
    destruct (route_step_total m waypoints boundary_corners st seg Hb) as [st1 ->].
    cbn. apply IH. }
  destruct (Hrun (_identify_scan_segments waypoints) ([], ∅)) as [st' ->].
  cbn. by eexists.
Qed.

Lemma route_never_raises_witness :
  ∃ out, filter_waypoints_with_detour example_registry
           [example_p1; example_p2] (Some (rectangle 0 0 1 1)) = Ok out.
Proof.
  apply route_never_raises. right. unfold rectangle. by eexists _, _.
Defined.

(** * Further properties of the registry *)

Lemma wf_remove_nearest m coords threshold_m :
  wf_manager m → wf_manager (remove_nearest_obstacle m coords threshold_m).1.
Proof.
  intros Hwf. unfold remove_nearest_obstacle.
  destruct (obstacles m) as [|o0 os]; [done|].
  destruct (foldl _ _ _) as [[o|] d]; [|done].
  cbn [fst]. by apply wf_remove_obstacle.
Qed.

(** Every operation of the registry keeps the registered objects pairwise
    distinct: no obstacle object is ever registered twice. *)
Theorem registry_objects_stay_distinct (m : ObstacleManager) (c coords : Point)
    (r sd threshold_m : R) (o : Obstacle) :
  wf_manager m →
  wf_manager new_manager ∧
  wf_manager (add_obstacle m c r sd).1 ∧
  wf_manager (remove_obstacle m o).1 ∧
  wf_manager (remove_nearest_obstacle m coords threshold_m).1 ∧
  wf_manager (clear_all m).
Proof.
  intros Hwf. split; [apply wf_new_manager|].
  split; [by apply wf_add_obstacle|]. split; [by apply wf_remove_obstacle|].
  split; [by apply wf_remove_nearest|].
  split; cbn; constructor.
Qed.

Lemma registry_objects_stay_distinct_witness :
  wf_manager origin_registry ∧
  wf_manager (remove_nearest_obstacle origin_registry (1, 1) 50).1.
Proof.
  assert (H : wf_manager origin_registry)
    by apply wf_add_obstacle, wf_new_manager.
  split; [exact H|].
  exact (proj1 (proj2 (proj2 (proj2
    (registry_objects_stay_distinct origin_registry (0, 0) (1, 1) 1 1 50
       (mkObstacle 0 (0, 0) 50 1) H))))).
Defined.

(** Removing an object that is not registered changes nothing and
    reports false; removing a registered one takes exactly that object out,
    keeps the order of the others, and reports true. *)
Theorem remove_obstacle_removes_exactly (m : ObstacleManager) (o : Obstacle) :
  wf_manager m →
  (oid o ∉ oid <$> obstacles m → remove_obstacle m o = (m, false)) ∧
  (o ∈ obstacles m →
   ∃ l1 l2, obstacles m = l1 ++ o :: l2 ∧
            remove_obstacle m o = (mkManager (l1 ++ l2) (next_oid m), true) ∧
            o ∉ l1 ++ l2).
Proof.
  intros [Hnd _]. split.
  - intros Hni. unfold remove_obstacle. by rewrite decide_False.
  - intros Hin. apply list_elem_of_split in Hin as (l1 & l2 & Heq).
    exists l1, l2. split; [exact Heq|].
    rewrite Heq, fmap_app in Hnd. cbn in Hnd.
    apply NoDup_app in Hnd as (_ & Hdis & Hnd2).
    apply NoDup_cons in Hnd2 as [Hni2 _].
    assert (Hni1 : oid o ∉ oid <$> l1).
    { intros H. apply (Hdis _ H). by left. }
    split.
    + unfold remove_obstacle. rewrite Heq.
      rewrite decide_True
        by (rewrite fmap_app; cbn; apply elem_of_app; right; by left).
      cbn [obstacles]. by rewrite list_remove_middle.
    + intros H. apply elem_of_app in H as [H|H].
      * apply Hni1. by apply list_elem_of_fmap_2.
      * apply Hni2. by apply list_elem_of_fmap_2.
Qed.

Lemma remove_obstacle_removes_exactly_witness :
  let o := mkObstacle 0 (0, 0) 50 1 in
  wf_manager origin_registry ∧
  ∃ l1 l2, obstacles origin_registry = l1 ++ o :: l2 ∧
           remove_obstacle origin_registry o
           = (mkManager (l1 ++ l2) (next_oid origin_registry), true).
Proof.
  intros o.
  assert (H : wf_manager origin_registry)
    by apply wf_add_obstacle, wf_new_manager.
  split; [exact H|].
  destruct (proj2 (remove_obstacle_removes_exactly origin_registry o H))
    as (l1 & l2 & H1 & H2 & _); [by left|].
  by exists l1, l2.
Defined.

(** Adding an obstacle and removing the returned object again restores the
    list of obstacles. *)
Theorem add_then_remove_restores (m : ObstacleManager) (c : Point) (r sd : R) :
  wf_manager m →
  let added := add_obstacle m c r sd in
  obstacles added.1 = obstacles m ++ [added.2] ∧
  remove_obstacle added.1 added.2
  = (mkManager (obstacles m) (S (next_oid m)), true).
Proof.
  intros [_ Hlt] added. split; [done|].
  unfold remove_obstacle, added, add_obstacle. cbn [fst snd obstacles next_oid].
  rewrite decide_True
    by (rewrite fmap_app; cbn; apply elem_of_app; right; by left).
  f_equal. f_equal.
  rewrite <- (app_nil_r (obstacles m)) at 2.
  apply (list_remove_middle _ (obstacles m) []). cbn [oid].
  intros Hin. apply list_elem_of_fmap in Hin as (o' & Heq & Hin').
  rewrite Forall_forall in Hlt. specialize (Hlt o' Hin'). lia.
Qed.

Lemma add_then_remove_restores_witness :
  wf_manager origin_registry ∧
  remove_obstacle (add_obstacle origin_registry (1, 1) 20 1).1
                  (add_obstacle origin_registry (1, 1) 20 1).2
  = (mkManager (obstacles origin_registry) (S (next_oid origin_registry)), true).
Proof.
  assert (H : wf_manager origin_registry)
    by apply wf_add_obstacle, wf_new_manager.
  split; [exact H|].
  exact (proj2 (add_then_remove_restores origin_registry (1, 1) 20 1 H)).
Defined.

Lemma calculate_distance_self (p : Point) : calculate_distance p p = 0.
Proof.
  destruct p as [lat lon]. unfold calculate_distance, radians.
  set (c := cos _).
  replace ((lon - lon) * (PI / 180) * c * ((lon - lon) * (PI / 180) * c)
           + (lat - lat) * (PI / 180) * ((lat - lat) * (PI / 180)))
    with 0 by ring.
  rewrite sqrt_0. ring.
Qed.

(** A waypoint placed on the centre of a registered obstacle with a
    positive effective radius is in collision; on an empty registry no
    waypoint is. *)
Theorem obstacle_centre_collides (m : ObstacleManager) (o : Obstacle) :
  o ∈ obstacles m → 0 < effective_radius o →
  check_waypoint_collision m (center o) = true ∧
  ∀ p, check_waypoint_collision (clear_all m) p = false.
Proof.
  intros Hin Hr. split.
  - unfold check_waypoint_collision. apply bool_decide_eq_true.
    apply Exists_exists. exists o. split; [exact Hin|].
    by rewrite calculate_distance_self.
  - intros p. unfold check_waypoint_collision. apply bool_decide_eq_false.
    cbn. by intros H%Exists_nil.
Qed.

Lemma obstacle_centre_collides_witness :
  check_waypoint_collision origin_registry (0, 0) = true.
Proof.
  refine (proj1 (obstacle_centre_collides origin_registry
                   (mkObstacle 0 (0, 0) 50 1) _ _)).
  - by left.
  - unfold effective_radius. cbn. lra.
Defined.

(** * Further properties of the scan segmenter *)

Lemma Sorted_replicate (n : nat) (d : R) : Sorted Rle (replicate n d).
Proof.
  induction n as [|n IH]; cbn; [constructor|].
  apply Sorted_cons; [exact IH|]. destruct n; cbn; constructor. lra.
Qed.

(** Evenly spaced waypoints are all scan legs: when every adjacent pair is
    the same positive distance apart every segment is labelled scan; when
    that distance is zero every segment is labelled turn. *)
Theorem uniform_spacing_labels (waypoints : list Point) (d : R) :
  (2 ≤ length waypoints)%nat →
  (∀ i, (S i < length waypoints)%nat →
        calculate_distance (waypoints !!! i) (waypoints !!! S i) = d) →
  _identify_scan_segments waypoints
  = (λ i, (if decide (0 < d) then scan else turn, (i, S i)))
      <$> seq 0 (length waypoints - 1).
Proof.
  intros Hlen Hd.
  set (N := (length waypoints - 1)%nat).
  assert (Hds : (λ i, calculate_distance (waypoints !!! i) (waypoints !!! S i))
                  <$> seq 0 N = replicate N d).
  { apply list_eq. intros i. rewrite list_lookup_fmap.
    destruct (decide (i < N)%nat) as [Hi|Hi].
    - rewrite lookup_seq_lt, lookup_replicate_2 by done. cbn.
      f_equal. apply Hd. unfold N in Hi. lia.
    - rewrite lookup_seq_ge by lia. cbn. symmetry.
      apply lookup_ge_None. rewrite length_replicate. lia. }
  rewrite (identify_scan_segments_eq waypoints (replicate N d) Hlen
             (Sorted_replicate N d)) by (fold N; by rewrite Hds).
  fold N. rewrite lookup_total_replicate_2 by (apply Nat.div_lt; unfold N; lia).
  apply list_fmap_ext. intros j i Hi. apply lookup_seq in Hi as [Hi Hj].
  rewrite Hd by (unfold N in Hj; lia).
  destruct (decide (d > 0.6 * d)), (decide (0 < d)); (done || lra).
Qed.

Lemma uniform_spacing_labels_witness :
  _identify_scan_segments [(0, 0); (1, 0); (2, 0)]
  = [(scan, (0, 1)); (scan, (1, 2))]%nat.
Proof.
  pose proof deg_m_pos as Hk.
  rewrite (uniform_spacing_labels [(0, 0); (1, 0); (2, 0)] deg_m).
  - cbn. by rewrite decide_True.
  - cbn. lia.
  - intros [|[|i]] Hi; [| |cbn in Hi; lia].
    + change (calculate_distance (0, 0) (1, 0) = deg_m).
      rewrite calculate_distance_meridian; lra.
    + change (calculate_distance (1, 0) (2, 0) = deg_m).
      rewrite calculate_distance_meridian; lra.
Defined.

Lemma calculate_distance_nonneg (p q : Point) : 0 <= calculate_distance p q.
Proof.
  destruct p, q. unfold calculate_distance, earth_radius_m.
  apply Rmult_le_pos; [apply sqrt_pos | lra].
Qed.

(** A longest leg of positive length is always labelled scan. *)
Theorem longest_leg_is_scan (waypoints : list Point) (i : nat) :
  let dist := λ j, calculate_distance (waypoints !!! j) (waypoints !!! S j) in
  (S i < length waypoints)%nat →
  (∀ j, (S j < length waypoints)%nat → dist j <= dist i) →
  0 < dist i →
  _identify_scan_segments waypoints !! i = Some (scan, (i, S i)).
Proof.
  intros dist Hi Hmax Hpos.
  set (N := (length waypoints - 1)%nat).
  set (s := sorted (dist <$> seq 0 N)).
  assert (Hs : Sorted Rle s) by (apply Sorted_merge_sort; tc_solve).
  assert (Hp : s ≡ₚ dist <$> seq 0 N) by apply merge_sort_Permutation.
  assert (Hm : ∃ j, (S j < length waypoints)%nat ∧ s !!! (N / 2)%nat = dist j).
  { assert (Hin : s !!! (N / 2)%nat ∈ s).
    { apply list_elem_of_lookup_total_2.
      rewrite Hp, length_fmap, length_seq. apply Nat.div_lt; unfold N; lia. }
    revert Hin. generalize (s !!! (N / 2)%nat). intros x Hin.
    rewrite Hp in Hin. apply list_elem_of_fmap in Hin as (j & Hj & Hin).
    apply elem_of_seq in Hin. exists j. split; [unfold N in Hin; lia | exact Hj]. }
  destruct Hm as (j & Hj & Hmed).
  rewrite (identify_scan_segments_eq waypoints s) by (done || lia).
  fold N dist. rewrite list_lookup_fmap, lookup_seq_lt by (unfold N; lia).
  cbn [fmap option_fmap option_map Nat.add].
  rewrite decide_True; [done|]. rewrite Hmed.
  pose proof (Hmax j Hj) as Hle.
  pose proof (calculate_distance_nonneg (waypoints !!! j) (waypoints !!! S j)) as H0.
  unfold dist in *. lra.
Qed.

Lemma longest_leg_is_scan_witness :
  _identify_scan_segments equator_path !! 0%nat = Some (scan, (0, 1)%nat).
Proof.
  pose proof deg_m_pos as Hk.
  assert (Hdiv : ∀ x y, x <= y → x / deg_m <= y / deg_m).
  { intros x y Hxy. apply Rmult_le_compat_r; [|exact Hxy].
    apply Rlt_le, Rinv_0_lt_compat, Hk. }
  assert (H0 : calculate_distance (equator_path !!! 0%nat) (equator_path !!! 1%nat)
               = 100).
  { change (calculate_distance (0, 0) (0, 100 / deg_m) = 100).
    replace 0 with (0 / deg_m) at 2 by (field; lra).
    rewrite calculate_distance_equator by (apply Hdiv; lra). field. lra. }
  apply (longest_leg_is_scan equator_path 0).
  - cbn. lia.
  - intros j Hj. rewrite H0. cbn in Hj.
    destruct j as [|[|[|[|j]]]]; [| | | |lia].
    + rewrite H0. lra.
    + change (calculate_distance (0, 100 / deg_m) (0, 105 / deg_m) <= 100).
      rewrite calculate_distance_equator by (apply Hdiv; lra).
      replace ((105 / deg_m - 100 / deg_m) * deg_m) with 5 by (field; lra). lra.
    + change (calculate_distance (0, 105 / deg_m) (0, 205 / deg_m) <= 100).
      rewrite calculate_distance_equator by (apply Hdiv; lra).
      replace ((205 / deg_m - 105 / deg_m) * deg_m) with 100 by (field; lra). lra.
    + change (calculate_distance (0, 205 / deg_m) (0, 210 / deg_m) <= 100).
      rewrite calculate_distance_equator by (apply Hdiv; lra).
      replace ((210 / deg_m - 205 / deg_m) * deg_m) with 5 by (field; lra). lra.
  - rewrite H0. lra.
Defined.

(** * Further properties of the user-interface extension *)



(** In the local plane the collision test uses, every point of the outline
    drawn for radius [radius_m] is at distance [radius_m * (PI / 180)] from
    the centre: the drawn circle lies inside the circle of radius
    [radius_m] that the collision test uses, strictly when the radius is
    not zero. *)
Theorem drawn_circle_inside_collision_circle (center_lat center_lon radius_m : R)
    (num_points : Z) (points : list Point) :
  cos (radians center_lat) ≠ 0 →
  generate_circle_points center_lat center_lon radius_m num_points = Some points →
  ∀ p, p ∈ points →
    sq_norm (to_meters center_lat center_lon p.1 p.2) = (radius_m * (PI / 180)) ^ 2 ∧
    line_intersects_circle p p (center_lat, center_lon) radius_m = true ∧
    (radius_m ≠ 0 →
     sq_norm (to_meters center_lat center_lon p.1 p.2) < radius_m ^ 2).
Proof.
  intros Hcos Hgen p Hp. unfold generate_circle_points in Hgen.
  destruct (decide _) as [|Hn]; [done|]. injection Hgen as <-.
  apply list_elem_of_fmap in Hp as (i & -> & _). cbv zeta.
  set (angle := 2 * PI * INR i / IZR num_points).
  set (lat := center_lat + radius_m / 111111 * cos angle).
  set (lon := center_lon + radius_m / 111111 * sin angle
                           / cos (radians center_lat)).
  cbn [fst snd].
  assert (Hsq : sq_norm (to_meters center_lat center_lon lat lon)
                = (radius_m * (PI / 180)) ^ 2).
  { unfold sq_norm, to_meters, earth_radius_m, lat, lon. cbn [fst snd].
    pose proof (sin2_cos2 angle) as Hsc. unfold Rsqr in Hsc.
    set (k := PI / 180).
    replace ((center_lon + radius_m / 111111 * sin angle / cos (radians center_lat)
              - center_lon) * k * 111111 * cos (radians center_lat))
      with (radius_m * k * sin angle) by (field; done).
    replace ((center_lat + radius_m / 111111 * cos angle - center_lat) * k * 111111)
      with (radius_m * k * cos angle) by field.
    replace ((radius_m * k * sin angle) ^ 2 + (radius_m * k * cos angle) ^ 2)
      with ((radius_m * k) ^ 2 * (sin angle * sin angle + cos angle * cos angle))
      by ring.
    rewrite Hsc. ring. }
  assert (Hk : 0 < PI / 180 < 1).
  { pose proof PI_RGT_0. pose proof PI_4. lra. }
  split; [exact Hsq|]. split.
  - unfold line_intersects_circle.
    destruct (to_meters center_lat center_lon lat lon) as [x y].
    unfold sq_norm in Hsq. cbn [fst snd] in Hsq.
    rewrite decide_True by ring. apply bool_decide_eq_true.
    replace (x * x + y * y) with (x ^ 2 + y ^ 2) by ring. rewrite Hsq.
    replace ((radius_m * (PI / 180)) ^ 2)
      with (radius_m * radius_m * ((PI / 180) * (PI / 180))) by ring.
    assert (0 <= radius_m * radius_m) by nra.
    assert (PI / 180 * (PI / 180) <= 1) by nra. nra.
  - intros Hr. rewrite Hsq.
    replace ((radius_m * (PI / 180)) ^ 2)
      with (radius_m ^ 2 * ((PI / 180) * (PI / 180))) by ring.
    assert (0 < radius_m ^ 2) by (apply pow_lt_0_compat_l || nra).
    assert (PI / 180 * (PI / 180) < 1) by nra. nra.
Qed.

Lemma drawn_circle_inside_collision_circle_witness :
  sq_norm (to_meters 0 0 (0 + 5 / 111111) 0) = (5 * (PI / 180)) ^ 2 ∧
  line_intersects_circle (0 + 5 / 111111, 0) (0 + 5 / 111111, 0) (0, 0) 5 = true ∧
  (5 ≠ 0 → sq_norm (to_meters 0 0 (0 + 5 / 111111) 0) < 5 ^ 2).
Proof.
  refine (drawn_circle_inside_collision_circle 0 0 5 36
            (default [] (generate_circle_points 0 0 5 36)) _ _
            (0 + 5 / 111111, 0) _).
  - unfold radians. replace (0 * (PI / 180)) with 0 by ring. rewrite cos_0. lra.
  - unfold generate_circle_points. by rewrite decide_False by lia.
  - unfold generate_circle_points. rewrite decide_False by lia.
    cbn [default]. apply list_elem_of_fmap. exists 0%nat.
    split; [|apply elem_of_seq; lia]. cbv zeta.
    replace (2 * PI * INR 0 / 36) with 0 by (cbn [INR]; unfold Rdiv; ring).
    rewrite cos_0, sin_0. f_equal; unfold Rdiv; ring.
Defined.

Lemma elem_of_list_remove_other (o r : Obstacle) (l : list Obstacle) :
  o ∈ l → oid o ≠ oid r → o ∈ list_remove r l.
Proof.
  intros Hin Hne. induction l as [|o' l IH]; [by apply elem_of_nil in Hin|].
  cbn [list_remove]. apply elem_of_cons in Hin as [->|Hin].
  - rewrite decide_False by done. left.
  - destruct (decide _); [exact Hin|]. right. by apply IH.
Qed.

Lemma remove_nearest_selected (m : ObstacleManager) (coords : Point)
    (threshold_m : R) (o : Obstacle) :
  o ∈ obstacles m →
  match remove_nearest_obstacle m coords threshold_m with
  | (m', Some r) => oid o ≠ oid r → o ∈ obstacles m'
  | (m', None) => o ∈ obstacles m'
  end.
Proof.
  intros Hin. unfold remove_nearest_obstacle.
  destruct (obstacles m) as [|o0 os] eqn:Hobs; [by rewrite Hobs|].
  destruct (foldl _ _ _) as [[r|] d]; [|by rewrite Hobs].
  intros Hne. unfold remove_obstacle.
  destruct (decide _); cbn [fst obstacles]; rewrite Hobs; [|exact Hin].
  by apply elem_of_list_remove_other.
Qed.

Lemma wf_mutate_object (m : ObstacleManager) (target : Obstacle)
    (f : Obstacle → Obstacle) :
  (∀ o, oid (f o) = oid o) →
  wf_manager m → wf_manager (mutate_object target f m).
Proof.
  intros Hf [Hnd Hlt].
  assert (Hid : ∀ o, oid (if decide (oid o = oid target) then f o else o) = oid o)
    by (intros o; destruct (decide _); [apply Hf | done]).
  split; cbn [mutate_object obstacles next_oid].
  - rewrite <- list_fmap_compose.
    erewrite list_fmap_ext; [exact Hnd|]. intros i o _. apply Hid.
  - apply Forall_fmap. eapply Forall_impl; [exact Hlt|].
    intros o Ho. unfold compose. by rewrite Hid.
Qed.

Lemma ui_do_consistent (ui : ObstacleUIExtension) (call : ui_call) :
  ui_consistent ui → ui_consistent (ui_do ui call).
Proof.
  intros (Hwf & Hmode & Hsel).
  destruct call as [| |coords|coords|value|value|]; cbn [ui_do].
  - unfold toggle_create_mode. destruct (creating_mode ui) eqn:Hc.
    + split; [exact Hwf|]. split; [cbn; by intros [? _]|exact Hsel].
    + split; [exact Hwf|]. split; [cbn; by intros [_ ?]|exact Hsel].
  - unfold toggle_delete_mode. destruct (delete_mode ui) eqn:Hd.
    + split; [exact Hwf|]. split; [cbn; by intros [_ ?]|exact Hsel].
    + split; [exact Hwf|]. split; [cbn; by intros [? _]|exact Hsel].
  - unfold on_create_click, add_obstacle.
    split; [by apply (wf_add_obstacle _ coords)|]. split; [exact Hmode|].
    cbn. intros o [= <-]. apply elem_of_app. right. left.
  - unfold on_delete_click.
    pose proof (wf_remove_nearest (obstacle_manager ui) coords 100 Hwf) as Hwf'.
    destruct (remove_nearest_obstacle _ _ _) as [m' [r|]] eqn:Hrem;
      cbn [fst] in Hwf'.
    + split; [exact Hwf'|]. split; [cbn; by intros [_ ?]|].
      cbn. intros o Ho. destruct (selected_obstacle ui) as [o'|] eqn:Hs; [|done].
      destruct (decide _) as [|Hne]; [done|]. injection Ho as ->.
      pose proof (remove_nearest_selected (obstacle_manager ui) coords 100 o
                    (Hsel o eq_refl)) as Hin.
      rewrite Hrem in Hin. by apply Hin.
    + split; [exact Hwf'|]. split; [cbn; by intros [_ ?]|].
      cbn. intros o Ho.
      pose proof (remove_nearest_selected (obstacle_manager ui) coords 100 o
                    (Hsel o Ho)) as Hin.
      by rewrite Hrem in Hin.
  - unfold on_radius_change. destruct (selected_obstacle ui) as [o|] eqn:Hs.
    + split; [by apply wf_mutate_object|]. split; [exact Hmode|].
      cbn. intros o' [= <-]. apply list_elem_of_fmap. exists o.
      split; [by rewrite decide_True | by apply Hsel].
    + split; [exact Hwf|]. split; [exact Hmode|]. by cbn.
  - unfold on_safe_distance_change. destruct (selected_obstacle ui) as [o|] eqn:Hs.
    + split; [by apply wf_mutate_object|]. split; [exact Hmode|].
      cbn. intros o' [= <-]. apply list_elem_of_fmap. exists o.
      split; [by rewrite decide_True | by apply Hsel].
    + split; [exact Hwf|]. split; [exact Hmode|]. by cbn.
  - split; [split; cbn; constructor|]. split; [exact Hmode|]. by cbn.
Qed.

(** Whatever sequence of calls is made on a fresh extension, the create
    and delete modes are never both on, the selected obstacle (if any) is
    one of the registered ones, and no object is registered twice. *)
Theorem ui_stays_consistent (calls : list ui_call) :
  ui_consistent (foldl ui_do new_ui calls).
Proof.
  assert (H : ∀ ui, ui_consistent ui → ui_consistent (foldl ui_do ui calls)).
  { induction calls as [|call calls IH]; intros ui Hui; [exact Hui|].
    cbn [foldl]. by apply IH, ui_do_consistent. }
  apply H. split; [apply wf_new_manager|]. split; [by intros [? _]|done].
Qed.

(** Moving a size slider right after a click that created an obstacle
    resizes that new obstacle in the registry and no other one. *)
Theorem resize_after_create_changes_only_new (ui : ObstacleUIExtension)
    (coords : Point) (value : R) :
  wf_manager (obstacle_manager ui) →
  let m := obstacle_manager ui in
  obstacles (obstacle_manager (on_radius_change (on_create_click ui coords) value))
  = obstacles m ++ [mkObstacle (next_oid m) coords value (default_safe_distance ui)] ∧
  obstacles (obstacle_manager
               (on_safe_distance_change (on_create_click ui coords) value))
  = obstacles m ++ [mkObstacle (next_oid m) coords (default_radius ui) value].
Proof.
  intros [_ Hlt] m.
  assert (Hold : ∀ f,
    (λ o, if decide (oid o = next_oid m) then f o else o) <$> obstacles m
    = obstacles m).
  { intros f. rewrite <- (list_fmap_id (obstacles m)) at 2.
    apply list_fmap_ext. intros i o Hi.
    rewrite Forall_lookup in Hlt. specialize (Hlt i o Hi). fold m in Hlt.
    rewrite decide_False by lia. done. }
  split.
  - unfold on_radius_change, on_create_click, add_obstacle, mutate_object.
    cbn. fold m. rewrite fmap_app, Hold. cbn. by rewrite decide_True.
  - unfold on_safe_distance_change, on_create_click, add_obstacle, mutate_object.
    cbn. fold m. rewrite fmap_app, Hold. cbn. by rewrite decide_True.
Qed.

Lemma resize_after_create_changes_only_new_witness :
  obstacles (obstacle_manager (on_radius_change (on_create_click new_ui (0, 0)) 8))
  = [mkObstacle 0 (0, 0) 8 1] ∧
  obstacles (obstacle_manager
               (on_safe_distance_change (on_create_click new_ui (0, 0)) 2))
  = [mkObstacle 0 (0, 0) 5 2].
Proof.
  split.
  - exact (proj1 (resize_after_create_changes_only_new new_ui (0, 0) 8
                    wf_new_manager)).
  - exact (proj2 (resize_after_create_changes_only_new new_ui (0, 0) 2
                    wf_new_manager)).
Defined.

(** The wrapper adds nothing to the planner: with or without registered
    obstacles it returns what [filter_waypoints_with_detour] returns. *)
Theorem apply_obstacle_avoidance_is_the_planner (ui : ObstacleUIExtension)
    (waypoints : list Point) (boundary_corners : option (list Point)) :
  apply_obstacle_avoidance ui waypoints boundary_corners
  = filter_waypoints_with_detour (obstacle_manager ui) waypoints boundary_corners.
Proof.
  unfold apply_obstacle_avoidance, filter_waypoints_with_detour.
  by destruct waypoints, (obstacles (obstacle_manager ui)).
Qed.
